(** * Inventory reservation API: reservation lifecycle

    A shallow embedding of the reservation core of the service:
    the two tables of [migration.sql] with their CHECK constraints, the
    stored function [create_reservation_atomic], the PostgREST statements
    issued by [ReservationRepository] and [ItemRepository], and the
    [ReservationService] / [ItemService] / [MaintenanceService] operations
    built on them; and of the HTTP layer that serves them: the response
    factory, [asyncHandler], the validation and error middleware, the three
    controllers and the order in which the application runs them.

    Conventions.
    - Timestamps are integers (milliseconds since the epoch); [toISOString]
      and [new Date(string)] are inverse to each other on them and are
      transparent here.
    - SQL INTEGER and JS numbers holding quantities are integers of [Z], and
      VARCHAR(255) columns are strings: the range of INTEGER and the length
      limit are not modelled (request validation enforces them upstream).
    - A table is a finite map from its PRIMARY KEY (the [id] column) to the
      remaining columns; a row as PostgREST returns it is the pair of the key
      and those columns.
    - Calls to [logger] have no effect on results or stored state and are
      left out.
    - The zod schemas of the routes are not modelled: the validation
      middleware is modelled for an arbitrary schema, and a controller takes
      the request as the schema of its route lets it through. *)

From Stdlib Require Import ZArith String Lia.
From stdpp Require Import gmap strings list fin_maps pretty.

Local Open Scope Z_scope.

Abbreviation uuid := positive (only parsing).
Abbreviation timestamp := Z (only parsing).

(** ** Domain types ([reservation.types.ts], [item.types.ts], [error.types.ts]) *)

Inductive ReservationStatus := PENDING | CONFIRMED | CANCELLED | EXPIRED.

#[global] Instance ReservationStatus_eq_dec : EqDecision ReservationStatus.
Proof. solve_decision. Defined.

Definition status_name (s : ReservationStatus) : string :=
  match s with
  | PENDING => "PENDING"
  | CONFIRMED => "CONFIRMED"
  | CANCELLED => "CANCELLED"
  | EXPIRED => "EXPIRED"
  end.

Inductive ErrorCode :=
| VALIDATION_ERROR
| INVALID_INPUT
| ITEM_NOT_FOUND
| RESERVATION_NOT_FOUND
| INSUFFICIENT_QUANTITY
| RESERVATION_EXPIRED
| INVALID_STATUS_TRANSITION
| CONFIRMATION_FAILED
| CANCELLATION_FAILED
| DATABASE_ERROR
| INTERNAL_ERROR.

#[global] Instance ErrorCode_eq_dec : EqDecision ErrorCode.
Proof. solve_decision. Defined.

(** Values stored in the [details] record of an [AppError]. *)
Inductive JsValue :=
| JsNumber (n : Z)
| JsStatus (s : ReservationStatus)
| JsDate (t : timestamp).

(** What a [throw] can carry: an [AppError] (code, message, HTTP status,
    optional details) or a plain [Error] with its message. *)
Inductive Exception :=
| AppError (code : ErrorCode) (message : string) (statusCode : Z)
           (details : option (list (string * JsValue)))
| Error (message : string).

(** Both are instances of the JS class [Error]. *)
Definition instanceof_Error (e : Exception) : bool :=
  match e with
  | AppError _ _ _ _ => true
  | Error _ => true
  end.

Module ItemRow.
(** Columns of [items] other than the key [id]. *)
Record t := mk {
  name : string;
  total_quantity : Z;
  created_at : timestamp;
  updated_at : timestamp
}.
End ItemRow.

Module Item.
Record t := mk {
  id : uuid;
  name : string;
  totalQuantity : Z;
  createdAt : timestamp;
  updatedAt : timestamp
}.
End Item.

Module ItemWithAvailability.
(** [interface ItemWithAvailability extends Item]: the fields of the item
    and the three derived quantities. *)
Record t := mk {
  item : Item.t;
  availableQuantity : Z;
  reservedQuantity : Z;
  confirmedQuantity : Z
}.
End ItemWithAvailability.

Module ReservationRow.
(** Columns of [reservations] other than the key [id]. *)
Record t := mk {
  item_id : uuid;
  customer_id : string;
  quantity : Z;
  status : ReservationStatus;
  expires_at : timestamp;
  created_at : timestamp;
  confirmed_at : option timestamp;
  cancelled_at : option timestamp;
  expired_at : option timestamp
}.
End ReservationRow.

Module Reservation.
Record t := mk {
  id : uuid;
  itemId : uuid;
  customerId : string;
  quantity : Z;
  status : ReservationStatus;
  expiresAt : timestamp;
  createdAt : timestamp;
  confirmedAt : option timestamp;
  cancelledAt : option timestamp;
  expiredAt : option timestamp
}.
End Reservation.

Record CreateReservationInput := {
  input_itemId : uuid;
  input_customerId : string;
  input_quantity : Z
}.

Record CreateReservationParams := {
  params_itemId : uuid;
  params_customerId : string;
  params_quantity : Z;
  params_expiresAt : timestamp
}.

Record CreateItemInput := {
  input_name : string;
  input_initialQuantity : Z
}.

Record ExpireReservationsResult := {
  expiredCount : Z;
  expiredReservationIds : list uuid
}.

(** ** The database ([migration.sql]) *)

Record Database := {
  items : gmap uuid ItemRow.t;
  reservations : gmap uuid ReservationRow.t
}.

Definition with_reservations (d : Database) (r : gmap uuid ReservationRow.t) : Database :=
  {| items := items d; reservations := r |}.

Definition with_items (d : Database) (i : gmap uuid ItemRow.t) : Database :=
  {| items := i; reservations := reservations d |}.

(** An error as PostgREST reports it: [code] and [message]. *)
Record PostgrestError := {
  pg_code : string;
  pg_message : string
}.

(** The [{ data, error }] pair of a supabase-js call: exactly one is set. *)
Inductive Response (A : Type) :=
| Data (data : A)
| Failure (error : PostgrestError).
Arguments Data {A} data.
Arguments Failure {A} error.

Definition sumZ (l : list Z) : Z := foldr Z.add 0 l.

Module Postgres.

(** [uuid_generate_v4()] as the DEFAULT of a PRIMARY KEY column: a key the
    table does not hold yet. *)
Definition uuid_generate_v4 {V} (table : gmap uuid V) : uuid := fresh (dom table).

(** [.single()]: the request fails with PGRST116 unless exactly one row
    comes back. *)
Definition PGRST116 : PostgrestError :=
  {| pg_code := "PGRST116";
     pg_message := "JSON object requested, multiple (or no) rows returned" |}.

Definition single {A} (rows : list A) : Response A :=
  match rows with
  | [row] => Data row
  | _ => Failure PGRST116
  end.

(** [SELECT * FROM <table> WHERE id = <id>] *)
Definition select_eq_id {V} (id : uuid) (table : gmap uuid V) : list (uuid * V) :=
  match table !! id with
  | Some row => [(id, row)]
  | None => []
  end.

(** Rows of [reservations] that satisfy a WHERE clause. *)
Definition select_where (P : ReservationRow.t → Prop) `{∀ r, Decision (P r)}
    (table : gmap uuid ReservationRow.t) : list (uuid * ReservationRow.t) :=
  filter (λ row, P row.2) (map_to_list table).

(** The WHERE clause [item_id = i AND status = 'PENDING' AND expires_at > t]. *)
Definition active_for (i : uuid) (t : timestamp) (r : ReservationRow.t) : Prop :=
  ReservationRow.item_id r = i ∧ ReservationRow.status r = PENDING
  ∧ t < ReservationRow.expires_at r.

(** The WHERE clause [item_id = i AND status = 'CONFIRMED']. *)
Definition confirmed_for (i : uuid) (r : ReservationRow.t) : Prop :=
  ReservationRow.item_id r = i ∧ ReservationRow.status r = CONFIRMED.

#[global] Instance active_for_dec i t r : Decision (active_for i t r).
Proof. unfold active_for. apply _. Defined.

#[global] Instance confirmed_for_dec i r : Decision (confirmed_for i r).
Proof. unfold confirmed_for. apply _. Defined.

(** [SELECT quantity FROM reservations WHERE ...] *)
Definition select_quantity (P : ReservationRow.t → Prop) `{∀ r, Decision (P r)}
    (table : gmap uuid ReservationRow.t) : list Z :=
  (λ row, ReservationRow.quantity row.2) <$> select_where P table.

(** [SELECT COALESCE(SUM(quantity), 0) FROM reservations WHERE ...] *)
Definition coalesce_sum_quantity (P : ReservationRow.t → Prop) `{∀ r, Decision (P r)}
    (table : gmap uuid ReservationRow.t) : Z :=
  sumZ (select_quantity P table).

Definition check_violation (constraint : string) : PostgrestError :=
  {| pg_code := "23514";
     pg_message := "new row for relation reservations violates check constraint " +:+ constraint |}.

Definition foreign_key_violation (constraint : string) : PostgrestError :=
  {| pg_code := "23503";
     pg_message := "insert or update on table reservations violates foreign key constraint " +:+ constraint |}.

(** The row that [INSERT INTO reservations (item_id, customer_id, quantity,
    status, expires_at) VALUES (...)] builds at [now]: [created_at] takes its
    DEFAULT [NOW()], the three timestamps of the transitions stay NULL. *)
Definition inserted_row (now : timestamp) (item_id : uuid) (customer_id : string)
    (quantity : Z) (status : ReservationStatus) (expires_at : timestamp)
    : ReservationRow.t :=
  {| ReservationRow.item_id := item_id;
     ReservationRow.customer_id := customer_id;
     ReservationRow.quantity := quantity;
     ReservationRow.status := status;
     ReservationRow.expires_at := expires_at;
     ReservationRow.created_at := now;
     ReservationRow.confirmed_at := None;
     ReservationRow.cancelled_at := None;
     ReservationRow.expired_at := None |}.

(** [INSERT INTO reservations (...) VALUES (...) RETURNING id]: [id] takes
    its DEFAULT. The row is rejected when it breaks [CHECK (quantity > 0)],
    [CHECK (expires_at > created_at)] or the foreign key to [items]; the
    CHECK on [status] holds for every [ReservationStatus]. *)
Definition insert_reservation (now : timestamp) (item_id : uuid) (customer_id : string)
    (quantity : Z) (status : ReservationStatus) (expires_at : timestamp)
    (d : Database) : PostgrestError + uuid * Database :=
  let id := uuid_generate_v4 (reservations d) in
  let row := inserted_row now item_id customer_id quantity status expires_at in
  if decide (ReservationRow.quantity row ≤ 0)
  then inl (check_violation "reservations_quantity_check")
  else if decide (ReservationRow.expires_at row ≤ ReservationRow.created_at row)
  then inl (check_violation "reservations_expires_after_creation")
  else if decide (items d !! item_id = None)
  then inl (foreign_key_violation "reservations_item_id_fkey")
  else inr (id, with_reservations d (<[id := row]> (reservations d))).

(** The stored function [create_reservation_atomic]. [now] is [NOW()], the
    start of the transaction the call runs in. The row lock taken by
    [SELECT ... FOR UPDATE] is what makes the whole body one atomic step
    with respect to other calls on the same item; a raised exception or a
    rejected INSERT aborts the transaction and leaves the tables as they
    were. *)
Definition create_reservation_atomic (now : timestamp) (p_item_id : uuid)
    (p_customer_id : string) (p_quantity : Z) (p_expires_at : timestamp)
    (d : Database) : Response (option uuid) * Database :=
  match items d !! p_item_id with
  | None =>
      (Failure {| pg_code := "P0001";
                  pg_message := "Item not found: " +:+ pretty p_item_id |}, d)
  | Some item =>
      let v_total_quantity := ItemRow.total_quantity item in
      let v_reserved_quantity :=
        coalesce_sum_quantity (active_for p_item_id now) (reservations d) in
      let v_confirmed_quantity :=
        coalesce_sum_quantity (confirmed_for p_item_id) (reservations d) in
      let v_available_quantity :=
        v_total_quantity - v_reserved_quantity - v_confirmed_quantity in
      if decide (v_available_quantity < p_quantity) then (Data None, d)
      else
        match insert_reservation now p_item_id p_customer_id p_quantity PENDING
                p_expires_at d with
        | inl e => (Failure e, d)
        | inr (v_reservation_id, d') => (Data (Some v_reservation_id), d')
        end
  end.

(** [UPDATE reservations SET ... WHERE id = <id> AND <guard> RETURNING *] *)
Definition update_eq_id (id : uuid) (guard : ReservationRow.t → Prop)
    `{∀ r, Decision (guard r)} (set : ReservationRow.t → ReservationRow.t)
    (table : gmap uuid ReservationRow.t)
    : list (uuid * ReservationRow.t) * gmap uuid ReservationRow.t :=
  match table !! id with
  | Some row =>
      if decide (guard row) then ([(id, set row)], <[id := set row]> table)
      else ([], table)
  | None => ([], table)
  end.

(** [UPDATE reservations SET ... WHERE <guard> RETURNING *] *)
Definition update_where (guard : ReservationRow.t → Prop)
    `{∀ r, Decision (guard r)} (set : ReservationRow.t → ReservationRow.t)
    (table : gmap uuid ReservationRow.t)
    : list (uuid * ReservationRow.t) * gmap uuid ReservationRow.t :=
  ((λ row, (row.1, set row.2)) <$> select_where guard table,
   (λ row, if decide (guard row) then set row else row) <$> table).

Definition set_confirmed (t : timestamp) (r : ReservationRow.t) : ReservationRow.t :=
  {| ReservationRow.item_id := ReservationRow.item_id r;
     ReservationRow.customer_id := ReservationRow.customer_id r;
     ReservationRow.quantity := ReservationRow.quantity r;
     ReservationRow.status := CONFIRMED;
     ReservationRow.expires_at := ReservationRow.expires_at r;
     ReservationRow.created_at := ReservationRow.created_at r;
     ReservationRow.confirmed_at := Some t;
     ReservationRow.cancelled_at := ReservationRow.cancelled_at r;
     ReservationRow.expired_at := ReservationRow.expired_at r |}.

Definition set_cancelled (t : timestamp) (r : ReservationRow.t) : ReservationRow.t :=
  {| ReservationRow.item_id := ReservationRow.item_id r;
     ReservationRow.customer_id := ReservationRow.customer_id r;
     ReservationRow.quantity := ReservationRow.quantity r;
     ReservationRow.status := CANCELLED;
     ReservationRow.expires_at := ReservationRow.expires_at r;
     ReservationRow.created_at := ReservationRow.created_at r;
     ReservationRow.confirmed_at := ReservationRow.confirmed_at r;
     ReservationRow.cancelled_at := Some t;
     ReservationRow.expired_at := ReservationRow.expired_at r |}.

Definition set_expired (t : timestamp) (r : ReservationRow.t) : ReservationRow.t :=
  {| ReservationRow.item_id := ReservationRow.item_id r;
     ReservationRow.customer_id := ReservationRow.customer_id r;
     ReservationRow.quantity := ReservationRow.quantity r;
     ReservationRow.status := EXPIRED;
     ReservationRow.expires_at := ReservationRow.expires_at r;
     ReservationRow.created_at := ReservationRow.created_at r;
     ReservationRow.confirmed_at := ReservationRow.confirmed_at r;
     ReservationRow.cancelled_at := ReservationRow.cancelled_at r;
     ReservationRow.expired_at := Some t |}.

(** The guards of the three conditional updates. *)
Definition pending_unexpired (t : timestamp) (r : ReservationRow.t) : Prop :=
  ReservationRow.status r = PENDING ∧ t < ReservationRow.expires_at r.

Definition pending (r : ReservationRow.t) : Prop :=
  ReservationRow.status r = PENDING.

Definition pending_due (t : timestamp) (r : ReservationRow.t) : Prop :=
  ReservationRow.status r = PENDING ∧ ReservationRow.expires_at r ≤ t.

#[global] Instance pending_unexpired_dec t r : Decision (pending_unexpired t r).
Proof. unfold pending_unexpired. apply _. Defined.

#[global] Instance pending_dec r : Decision (pending r).
Proof. unfold pending. apply _. Defined.

#[global] Instance pending_due_dec t r : Decision (pending_due t r).
Proof. unfold pending_due. apply _. Defined.

(** [INSERT INTO reservations (...) VALUES (...) RETURNING *], the statement
    behind [.insert({...}).select().single()]: the row comes back with the
    columns the store filled in. *)
Definition insert_reservation_returning (now : timestamp) (item_id : uuid)
    (customer_id : string) (quantity : Z) (status : ReservationStatus)
    (expires_at : timestamp) (d : Database)
    : Response (uuid * ReservationRow.t) * Database :=
  match insert_reservation now item_id customer_id quantity status expires_at d with
  | inl e => (Failure e, d)
  | inr (id, d') =>
      (Data (id, inserted_row now item_id customer_id quantity status expires_at), d')
  end.

Definition items_check_violation (constraint : string) : PostgrestError :=
  {| pg_code := "23514";
     pg_message := "new row for relation items violates check constraint " +:+ constraint |}.

(** [INSERT INTO items (name, total_quantity) VALUES (...) RETURNING *]:
    [id], [created_at] and [updated_at] take their DEFAULTs. The row is
    rejected when it breaks [CHECK (total_quantity > 0)]. *)
Definition insert_item (now : timestamp) (name : string) (total_quantity : Z)
    (d : Database) : Response (uuid * ItemRow.t) * Database :=
  let id := uuid_generate_v4 (items d) in
  let row := {| ItemRow.name := name;
                ItemRow.total_quantity := total_quantity;
                ItemRow.created_at := now;
                ItemRow.updated_at := now |} in
  if decide (ItemRow.total_quantity row ≤ 0)
  then (Failure (items_check_violation "items_total_quantity_check"), d)
  else (Data (id, row), with_items d (<[id := row]> (items d))).

End Postgres.

(** ** Requests to the store

    One constructor per statement that the repositories send through
    supabase-js; the index is the type of the [{ data, error }] answer. Each
    request runs as one transaction. *)
Inductive Query : Type → Type :=
(** [from('items').select('*').eq('id', id).single()] *)
| items_select_single (id : uuid) : Query (Response (uuid * ItemRow.t))
(** [rpc('create_reservation_atomic', {...})] *)
| rpc_create_reservation_atomic (p_item_id : uuid) (p_customer_id : string)
    (p_quantity : Z) (p_expires_at : timestamp) : Query (Response (option uuid))
(** [from('reservations').select('*').eq('id', id).single()] *)
| reservations_select_single (id : uuid) : Query (Response (uuid * ReservationRow.t))
(** [update({status: CONFIRMED, confirmed_at}).eq('id', id)
     .eq('status', PENDING).gt('expires_at', t).select().single()] *)
| reservations_update_confirmed (confirmed_at : timestamp) (id : uuid)
    (gt_expires_at : timestamp) : Query (Response (uuid * ReservationRow.t))
(** [update({status: CANCELLED, cancelled_at}).eq('id', id)
     .eq('status', PENDING).select().single()] *)
| reservations_update_cancelled (cancelled_at : timestamp) (id : uuid)
    : Query (Response (uuid * ReservationRow.t))
(** [update({status: EXPIRED, expired_at}).eq('status', PENDING)
     .lte('expires_at', t).select('id')] *)
| reservations_update_expired (expired_at : timestamp) (lte_expires_at : timestamp)
    : Query (Response (list uuid))
(** [select('quantity').eq('item_id', i).eq('status', PENDING).gt('expires_at', t)] *)
| reservations_select_quantity_active (item_id : uuid) (gt_expires_at : timestamp)
    : Query (Response (list Z))
(** [select('quantity').eq('item_id', i).eq('status', CONFIRMED)] *)
| reservations_select_quantity_confirmed (item_id : uuid) : Query (Response (list Z)).

(** What the store answers to a request received at time [now], and the
    tables afterwards. *)
Definition exec {B} (q : Query B) (now : timestamp) (d : Database) : B * Database :=
  match q in Query B return B * Database with
  | items_select_single id =>
      (Postgres.single (Postgres.select_eq_id id (items d)), d)
  | rpc_create_reservation_atomic p_item_id p_customer_id p_quantity p_expires_at =>
      Postgres.create_reservation_atomic now p_item_id p_customer_id p_quantity
        p_expires_at d
  | reservations_select_single id =>
      (Postgres.single (Postgres.select_eq_id id (reservations d)), d)
  | reservations_update_confirmed confirmed_at id gt_expires_at =>
      let '(rows, table) :=
        Postgres.update_eq_id id (Postgres.pending_unexpired gt_expires_at)
          (Postgres.set_confirmed confirmed_at) (reservations d) in
      (Postgres.single rows, with_reservations d table)
  | reservations_update_cancelled cancelled_at id =>
      let '(rows, table) :=
        Postgres.update_eq_id id Postgres.pending
          (Postgres.set_cancelled cancelled_at) (reservations d) in
      (Postgres.single rows, with_reservations d table)
  | reservations_update_expired expired_at lte_expires_at =>
      let '(rows, table) :=
        Postgres.update_where (Postgres.pending_due lte_expires_at)
          (Postgres.set_expired expired_at) (reservations d) in
      (Data (rows.*1), with_reservations d table)
  | reservations_select_quantity_active item_id gt_expires_at =>
      (Data (Postgres.select_quantity (Postgres.active_for item_id gt_expires_at)
               (reservations d)), d)
  | reservations_select_quantity_confirmed item_id =>
      (Data (Postgres.select_quantity (Postgres.confirmed_for item_id)
               (reservations d)), d)
  end.

(** ** Programs of the service layer

    A repository or service method is a tree of clock readings and requests
    to the store: [Now] is a reading of the process clock ([Date.now()],
    [new Date()]), [Await] sends one request and resumes with its answer. *)
Inductive Prog (A : Type) : Type :=
| Ret (a : A)
| Throw (e : Exception)
| Now (k : timestamp → Prog A)
| Await {B : Type} (q : Query B) (k : B → Prog A).
Arguments Ret {A} a.
Arguments Throw {A} e.
Arguments Now {A} k.
Arguments Await {A B} q k.

Fixpoint bind {A B} (p : Prog A) (f : A → Prog B) : Prog B :=
  match p with
  | Ret a => f a
  | Throw e => Throw e
  | Now k => Now (λ t, bind (k t) f)
  | Await q k => Await q (λ b, bind (k b) f)
  end.

(** [try { p } catch (error) { h error }] *)
Fixpoint try_catch {A} (p : Prog A) (h : Exception → Prog A) : Prog A :=
  match p with
  | Ret a => Ret a
  | Throw e => h e
  | Now k => Now (λ t, try_catch (k t) h)
  | Await q k => Await q (λ b, try_catch (k b) h)
  end.

#[global] Instance Prog_ret : MRet Prog := λ A a, Ret a.
#[global] Instance Prog_bind : MBind Prog := λ A B f p, bind p f.

Definition new_Date : Prog timestamp := Now Ret.
Definition Date_now : Prog timestamp := Now Ret.
Definition await {B} (q : Query B) : Prog B := Await q Ret.

(** How a promise settles. *)
Inductive Outcome (A : Type) :=
| Resolved (a : A)
| Rejected (e : Exception).
Arguments Resolved {A} a.
Arguments Rejected {A} e.

(** A call that runs alone, at the instant [now]: every clock reading gives
    [now] and every request is served at [now], on the tables the previous
    request left. *)
Fixpoint run {A} (p : Prog A) (now : timestamp) (d : Database) : Outcome A * Database :=
  match p with
  | Ret a => (Resolved a, d)
  | Throw e => (Rejected e, d)
  | Now k => run (k now) now d
  | Await q k => let '(b, d') := exec q now d in run (k b) now d'
  end.

(** ** Calls served alone

    What a call does when it is served alone at the instant [now]: how its
    promise settles and the tables it leaves. [serve] gives this reading of a
    program. The methods that send a single INSERT, a statement that is not
    among the requests of the reservation lifecycle, and the HTTP layer on
    top of the services are written in this monad directly. *)
Definition Call (A : Type) : Type := timestamp → Database → Outcome A * Database.

#[global] Instance Call_ret : MRet Call := λ A a now d, (Resolved a, d).

#[global] Instance Call_bind : MBind Call := λ A B f call now d,
  match call now d with
  | (Resolved a, d') => f a now d'
  | (Rejected e, d') => (Rejected e, d')
  end.

Definition throw {A} (e : Exception) : Call A := λ now d, (Rejected e, d).

(** One statement, served as one transaction. *)
Definition statement {B} (f : timestamp → Database → B * Database) : Call B :=
  λ now d, let '(b, d') := f now d in (Resolved b, d').

Definition serve {A} (p : Prog A) : Call A := run p.

(** [s.includes(sub)] *)
Definition includes (s sub : string) : bool :=
  match String.index 0 sub s with
  | Some _ => true
  | None => false
  end.

(** [x || 0] on a number. *)
Definition or_zero (x : Z) : Z := if decide (x = 0) then 0 else x.

(** [data?.reduce((sum, r) => sum + (r.quantity || 0), 0) || 0] *)
Definition reduce_quantity (data : list Z) : Z :=
  or_zero (fold_left (λ sum quantity, sum + or_zero quantity) data 0).

(** ** Configuration ([config/environment.ts]) *)
Record Env := {
  RESERVATION_EXPIRY_MINUTES : Z
}.

Definition RESERVATION_EXPIRY_MS (env : Env) : Z :=
  RESERVATION_EXPIRY_MINUTES env * 60 * 1000.

(** ** [ItemRepository] *)
Module ItemRepository.

Definition mapToItem (row : uuid * ItemRow.t) : Item.t :=
  {| Item.id := row.1;
     Item.name := ItemRow.name row.2;
     Item.totalQuantity := ItemRow.total_quantity row.2;
     Item.createdAt := ItemRow.created_at row.2;
     Item.updatedAt := ItemRow.updated_at row.2 |}.

Definition findById (id : uuid) : Prog (option Item.t) :=
  resp ← await (items_select_single id);
  match resp with
  | Failure error =>
      if decide (pg_code error = "PGRST116") then mret None
      else Throw (Error ("Failed to find item: " +:+ pg_message error))
  | Data data => mret (Some (mapToItem data))
  end.

(** The two sums are computed by two further requests, each at its own
    reading of the clock; no lock is taken. *)
Definition findByIdWithAvailability (id : uuid) : Prog (option ItemWithAvailability.t) :=
  item ← findById id;
  match item with
  | None => mret None
  | Some item =>
      gt_expires_at ← new_Date;
      reserved ← await (reservations_select_quantity_active id gt_expires_at);
      match reserved with
      | Failure reservedError =>
          Throw (Error ("Failed to calculate reserved quantity: "
                        +:+ pg_message reservedError))
      | Data reservedData =>
          let reservedQuantity := reduce_quantity reservedData in
          confirmed ← await (reservations_select_quantity_confirmed id);
          match confirmed with
          | Failure confirmedError =>
              Throw (Error ("Failed to calculate confirmed quantity: "
                            +:+ pg_message confirmedError))
          | Data confirmedData =>
              let confirmedQuantity := reduce_quantity confirmedData in
              let availableQuantity :=
                Item.totalQuantity item - reservedQuantity - confirmedQuantity in
              mret (Some {| ItemWithAvailability.item := item;
                            ItemWithAvailability.availableQuantity := availableQuantity;
                            ItemWithAvailability.reservedQuantity := reservedQuantity;
                            ItemWithAvailability.confirmedQuantity := confirmedQuantity |})
          end
      end
  end.

Definition create (name : string) (totalQuantity : Z) : Call Item.t :=
  resp ← statement (λ now, Postgres.insert_item now name totalQuantity);
  match resp with
  | Failure error => throw (Error ("Failed to create item: " +:+ pg_message error))
  | Data data => mret (mapToItem data)
  end.

Definition getReservedQuantity (itemId : uuid) : Prog Z :=
  gt_expires_at ← new_Date;
  resp ← await (reservations_select_quantity_active itemId gt_expires_at);
  match resp with
  | Failure error =>
      Throw (Error ("Failed to get reserved quantity: " +:+ pg_message error))
  | Data data => mret (reduce_quantity data)
  end.

Definition getConfirmedQuantity (itemId : uuid) : Prog Z :=
  resp ← await (reservations_select_quantity_confirmed itemId);
  match resp with
  | Failure error =>
      Throw (Error ("Failed to get confirmed quantity: " +:+ pg_message error))
  | Data data => mret (reduce_quantity data)
  end.

End ItemRepository.

(** ** [ReservationRepository] *)
Module ReservationRepository.

Definition mapToReservation (row : uuid * ReservationRow.t) : Reservation.t :=
  {| Reservation.id := row.1;
     Reservation.itemId := ReservationRow.item_id row.2;
     Reservation.customerId := ReservationRow.customer_id row.2;
     Reservation.quantity := ReservationRow.quantity row.2;
     Reservation.status := ReservationRow.status row.2;
     Reservation.expiresAt := ReservationRow.expires_at row.2;
     Reservation.createdAt := ReservationRow.created_at row.2;
     Reservation.confirmedAt := ReservationRow.confirmed_at row.2;
     Reservation.cancelledAt := ReservationRow.cancelled_at row.2;
     Reservation.expiredAt := ReservationRow.expired_at row.2 |}.

Definition findById (id : uuid) : Prog (option Reservation.t) :=
  resp ← await (reservations_select_single id);
  match resp with
  | Failure error =>
      if decide (pg_code error = "PGRST116") then mret None
      else Throw (Error ("Failed to find reservation: " +:+ pg_message error))
  | Data data => mret (Some (mapToReservation data))
  end.

Definition createAtomic (params : CreateReservationParams) : Prog (option Reservation.t) :=
  try_catch
    (resp ← await (rpc_create_reservation_atomic (params_itemId params)
                     (params_customerId params) (params_quantity params)
                     (params_expiresAt params));
     match resp with
     | Failure error =>
         if includes (pg_message error) "Item not found"
         then Throw (Error ("Item not found: " +:+ pretty (params_itemId params)))
         else Throw (Error ("Failed to create reservation: " +:+ pg_message error))
     | Data None => mret None
     | Data (Some reservationId) =>
         reservation ← findById reservationId;
         match reservation with
         | None => Throw (Error "Reservation created but not found")
         | Some reservation => mret (Some reservation)
         end
     end)
    (λ error,
       if instanceof_Error error then Throw error
       else Throw (Error "Unexpected error creating reservation")).

Definition confirmReservation (id : uuid) : Prog (option Reservation.t) :=
  confirmed_at ← new_Date;
  gt_expires_at ← new_Date;
  resp ← await (reservations_update_confirmed confirmed_at id gt_expires_at);
  match resp with
  | Failure error =>
      if decide (pg_code error = "PGRST116") then mret None
      else Throw (Error ("Failed to confirm reservation: " +:+ pg_message error))
  | Data data => mret (Some (mapToReservation data))
  end.

Definition cancelReservation (id : uuid) : Prog (option Reservation.t) :=
  cancelled_at ← new_Date;
  resp ← await (reservations_update_cancelled cancelled_at id);
  match resp with
  | Failure error =>
      if decide (pg_code error = "PGRST116") then mret None
      else Throw (Error ("Failed to cancel reservation: " +:+ pg_message error))
  | Data data => mret (Some (mapToReservation data))
  end.

Definition expireReservations : Prog ExpireReservationsResult :=
  expired_at ← new_Date;
  lte_expires_at ← new_Date;
  resp ← await (reservations_update_expired expired_at lte_expires_at);
  match resp with
  | Failure error =>
      Throw (Error ("Failed to expire reservations: " +:+ pg_message error))
  | Data data =>
      let expiredIds := data in
      mret {| expiredCount := Z.of_nat (length expiredIds);
              expiredReservationIds := expiredIds |}
  end.

Definition getActiveReservedQuantity (itemId : uuid) : Prog Z :=
  gt_expires_at ← new_Date;
  resp ← await (reservations_select_quantity_active itemId gt_expires_at);
  match resp with
  | Failure error =>
      Throw (Error ("Failed to get active reserved quantity: " +:+ pg_message error))
  | Data data => mret (reduce_quantity data)
  end.

Definition getConfirmedQuantity (itemId : uuid) : Prog Z :=
  resp ← await (reservations_select_quantity_confirmed itemId);
  match resp with
  | Failure error =>
      Throw (Error ("Failed to get confirmed quantity: " +:+ pg_message error))
  | Data data => mret (reduce_quantity data)
  end.

(** The non-atomic [create], kept in the repository as deprecated: one
    INSERT, no look at the availability. *)
Definition create (params : CreateReservationParams) : Call Reservation.t :=
  resp ← statement (λ now,
            Postgres.insert_reservation_returning now (params_itemId params)
              (params_customerId params) (params_quantity params) PENDING
              (params_expiresAt params));
  match resp with
  | Failure error => throw (Error ("Failed to create reservation: " +:+ pg_message error))
  | Data data => mret (mapToReservation data)
  end.

End ReservationRepository.

(** ** [ReservationService] *)
Module ReservationService.

Section WithEnv.
Context (env : Env).

Definition createReservation (input : CreateReservationInput) : Prog Reservation.t :=
  item ← ItemRepository.findById (input_itemId input);
  match item with
  | None =>
      Throw (AppError ITEM_NOT_FOUND
               ("Item with ID " +:+ pretty (input_itemId input) +:+ " not found") 404 None)
  | Some item =>
      now ← Date_now;
      let expiresAt := now + RESERVATION_EXPIRY_MS env in
      reservation ← ReservationRepository.createAtomic
                      {| params_itemId := input_itemId input;
                         params_customerId := input_customerId input;
                         params_quantity := input_quantity input;
                         params_expiresAt := expiresAt |};
      match reservation with
      | None =>
          reservedQuantity ←
            ReservationRepository.getActiveReservedQuantity (input_itemId input);
          confirmedQuantity ←
            ReservationRepository.getConfirmedQuantity (input_itemId input);
          let availableQuantity :=
            Item.totalQuantity item - reservedQuantity - confirmedQuantity in
          Throw (AppError INSUFFICIENT_QUANTITY
                   ("Cannot reserve " +:+ pretty (input_quantity input)
                    +:+ " units. Only " +:+ pretty availableQuantity +:+ " available.")
                   409
                   (Some [("requested", JsNumber (input_quantity input));
                          ("available", JsNumber availableQuantity)]))
      | Some reservation => mret reservation
      end
  end.

End WithEnv.

Definition confirmReservation (id : uuid) : Prog Reservation.t :=
  existing ← ReservationRepository.findById id;
  match existing with
  | None =>
      Throw (AppError RESERVATION_NOT_FOUND
               ("Reservation with ID " +:+ pretty id +:+ " not found") 404 None)
  | Some existing =>
      if decide (Reservation.status existing = CONFIRMED) then mret existing
      else if decide (Reservation.status existing ≠ PENDING) then
        Throw (AppError INVALID_STATUS_TRANSITION
                 ("Cannot confirm " +:+ status_name (Reservation.status existing)
                  +:+ " reservation")
                 409 (Some [("currentStatus", JsStatus (Reservation.status existing))]))
      else
        now ← new_Date;
        if decide (Reservation.expiresAt existing < now) then
          Throw (AppError RESERVATION_EXPIRED "Cannot confirm expired reservation" 409
                   (Some [("expiredAt", JsDate (Reservation.expiresAt existing))]))
        else
          confirmed ← ReservationRepository.confirmReservation id;
          match confirmed with
          | None =>
              current ← ReservationRepository.findById id;
              match current with
              | Some current =>
                  if decide (Reservation.status current = CONFIRMED) then mret current
                  else
                    Throw (AppError CONFIRMATION_FAILED
                             "Failed to confirm reservation (may have been expired or cancelled concurrently)"
                             409 None)
              | None =>
                  Throw (AppError CONFIRMATION_FAILED
                           "Failed to confirm reservation (may have been expired or cancelled concurrently)"
                           409 None)
              end
          | Some confirmed => mret confirmed
          end
  end.

Definition cancelReservation (id : uuid) : Prog Reservation.t :=
  existing ← ReservationRepository.findById id;
  match existing with
  | None =>
      Throw (AppError RESERVATION_NOT_FOUND
               ("Reservation with ID " +:+ pretty id +:+ " not found") 404 None)
  | Some existing =>
      if decide (Reservation.status existing = CANCELLED) then mret existing
      else if decide (Reservation.status existing = EXPIRED) then mret existing
      else if decide (Reservation.status existing = CONFIRMED) then
        Throw (AppError INVALID_STATUS_TRANSITION "Cannot cancel confirmed reservation" 409
                 (Some [("currentStatus", JsStatus (Reservation.status existing))]))
      else
        cancelled ← ReservationRepository.cancelReservation id;
        match cancelled with
        | None =>
            current ← ReservationRepository.findById id;
            match current with
            | Some current =>
                if decide (Reservation.status current = CANCELLED
                           ∨ Reservation.status current = EXPIRED)
                then mret current
                else
                  Throw (AppError CANCELLATION_FAILED
                           "Failed to cancel reservation (may have been confirmed or expired concurrently)"
                           409 None)
            | None =>
                Throw (AppError CANCELLATION_FAILED
                         "Failed to cancel reservation (may have been confirmed or expired concurrently)"
                         409 None)
            end
        | Some cancelled => mret cancelled
        end
  end.

Definition getReservation (id : uuid) : Prog Reservation.t :=
  reservation ← ReservationRepository.findById id;
  match reservation with
  | None =>
      Throw (AppError RESERVATION_NOT_FOUND
               ("Reservation with ID " +:+ pretty id +:+ " not found") 404 None)
  | Some reservation => mret reservation
  end.

End ReservationService.

(** ** [ItemService] *)
Module ItemService.

Definition getItemWithAvailability (id : uuid) : Prog ItemWithAvailability.t :=
  item ← ItemRepository.findByIdWithAvailability id;
  match item with
  | None =>
      Throw (AppError ITEM_NOT_FOUND ("Item with ID " +:+ pretty id +:+ " not found")
               404 None)
  | Some item => mret item
  end.

Definition getItem (id : uuid) : Prog Item.t :=
  item ← ItemRepository.findById id;
  match item with
  | None =>
      Throw (AppError ITEM_NOT_FOUND ("Item with ID " +:+ pretty id +:+ " not found")
               404 None)
  | Some item => mret item
  end.

Definition createItem (input : CreateItemInput) : Call Item.t :=
  item ← ItemRepository.create (input_name input) (input_initialQuantity input);
  mret item.

End ItemService.

(** ** [MaintenanceService] *)
Module MaintenanceService.

Definition expireReservations : Prog ExpireReservationsResult :=
  result ← ReservationRepository.expireReservations;
  mret result.

End MaintenanceService.

(** ** The HTTP layer ([utils/], [middleware/], [controllers/], [app.ts])

    A request body or path parameter is what the route's validation lets
    through, with the types the controller hands to the service. The body of
    a response is the value given to [res.json]; its serialisation is not
    modelled. *)

(** The string an [ErrorCode] stands for. *)
Definition ErrorCode_value (code : ErrorCode) : string :=
  match code with
  | VALIDATION_ERROR => "VALIDATION_ERROR"
  | INVALID_INPUT => "INVALID_INPUT"
  | ITEM_NOT_FOUND => "ITEM_NOT_FOUND"
  | RESERVATION_NOT_FOUND => "RESERVATION_NOT_FOUND"
  | INSUFFICIENT_QUANTITY => "INSUFFICIENT_QUANTITY"
  | RESERVATION_EXPIRED => "RESERVATION_EXPIRED"
  | INVALID_STATUS_TRANSITION => "INVALID_STATUS_TRANSITION"
  | CONFIRMATION_FAILED => "CONFIRMATION_FAILED"
  | CANCELLATION_FAILED => "CANCELLATION_FAILED"
  | DATABASE_ERROR => "DATABASE_ERROR"
  | INTERNAL_ERROR => "INTERNAL_ERROR"
  end.

Module ZodIssue.
(** An issue of a [ZodError]: the path to the offending value, of keys and
    indices, and the message. *)
Record t := mk {
  path : list (string + Z);
  message : string
}.
End ZodIssue.

(** What a handler can be made to catch or pass to [next]: an [Exception] of
    the service layer or a [ZodError] with its issues. *)
Inductive Thrown :=
| thrown (e : Exception)
| ZodError (errors : list ZodIssue.t).

(** The [details] of an error response: the [details] of an [AppError],
    [{ errors: err.errors }] of the error handler, or
    [{ errors: [{ field, message }, ...] }] of the validation middleware. *)
Inductive Details :=
| details_record (fields : list (string * JsValue))
| details_issues (errors : list ZodIssue.t)
| details_fields (errors : list (string * string)).

Module ApiSuccessResponse.
Record t (T : Type) := mk {
  data : T;
  message : option string
}.
Arguments mk {T} data message.
Arguments data {T} t.
Arguments message {T} t.
End ApiSuccessResponse.

Module ApiErrorResponse.
Record error_t := mk_error {
  code : string;
  message : string;
  details : option Details
}.
Record t := mk {
  error : error_t
}.
End ApiErrorResponse.

(** [message] is set only when it is given and not empty ([if (message)]). *)
Definition createSuccessResponse {T} (data : T) (message : option string)
    : ApiSuccessResponse.t T :=
  let response := ApiSuccessResponse.mk data None in
  match message with
  | Some text =>
      if decide (text = EmptyString) then response
      else ApiSuccessResponse.mk (ApiSuccessResponse.data response) (Some text)
  | None => response
  end.

Definition createErrorResponse (code : string) (message : string) (details : option Details)
    : ApiErrorResponse.t :=
  {| ApiErrorResponse.error :=
       {| ApiErrorResponse.code := code;
          ApiErrorResponse.message := message;
          ApiErrorResponse.details := details |} |}.

(** What [res.json] is given: a success or an error response of the response
    factory, or the literal object of the application's 404 handler. *)
Inductive Body (T : Type) :=
| success_body (response : ApiSuccessResponse.t T)
| error_body (response : ApiErrorResponse.t)
| not_found_body.
Arguments success_body {T} response.
Arguments error_body {T} response.
Arguments not_found_body {T}.

(** [res.status(statusCode).json(json)] *)
Record HttpResponse (T : Type) := {
  statusCode : Z;
  json : Body T
}.
Arguments statusCode {T} h.
Arguments json {T} h.

(** What a handler does with a request: it sends the response, or calls
    [next()], or calls [next(err)]. *)
Inductive Handled (T : Type) :=
| sent (response : HttpResponse T)
| next
| next_error (err : Thrown).
Arguments sent {T} response.
Arguments next {T}.
Arguments next_error {T} err.

Definition Handler (T : Type) : Type := timestamp → Database → Handled T * Database.

(** [Promise.resolve(fn(req, res, next)).catch(next)]: [fn] resolves once it
    has sent its response. *)
Definition asyncHandler {T} (fn : Call (HttpResponse T)) : Handler T :=
  λ now d,
    match fn now d with
    | (Resolved response, d') => (sent response, d')
    | (Rejected e, d') => (next_error (thrown e), d')
    end.

(** An element of [err.path] as [join] prints it. *)
Definition path_element (p : string + Z) : string :=
  match p with
  | inl key => key
  | inr index => pretty index
  end.

(** How [schema.parseAsync] ends: the value is accepted, a [ZodError] is
    thrown, or something else is. *)
Inductive ParseResult :=
| parsed
| parse_ZodError (errors : list ZodIssue.t)
| parse_error (e : Exception).

(** [validate(schema)], for any schema; [req] is the object
    [{ body, params, query }] that is parsed. *)
Definition validate {Req T} (schema : Req → ParseResult) (req : Req) : Handler T :=
  λ now d,
    match schema req with
    | parsed => (next, d)
    | parse_ZodError errors =>
        let errorDetails :=
          (λ err, (String.concat "." (path_element <$> ZodIssue.path err),
                   ZodIssue.message err)) <$> errors in
        (sent {| statusCode := 400;
                 json := error_body
                   (createErrorResponse "VALIDATION_ERROR" "Validation failed"
                      (Some (details_fields errorDetails))) |}, d)
    | parse_error e => (next_error (thrown e), d)
    end.

Definition errorHandler {T} (err : Thrown) : HttpResponse T :=
  match err with
  | thrown (AppError code message status details) =>
      {| statusCode := status;
         json := error_body (createErrorResponse (ErrorCode_value code) message
                               (details_record <$> details)) |}
  | ZodError errors =>
      {| statusCode := 400;
         json := error_body (createErrorResponse (ErrorCode_value VALIDATION_ERROR)
                               "Validation failed" (Some (details_issues errors))) |}
  | thrown (Error message) =>
      if includes message "duplicate key" then
        {| statusCode := 409;
           json := error_body (createErrorResponse (ErrorCode_value DATABASE_ERROR)
                                 "Duplicate resource" None) |}
      else if includes message "foreign key" then
        {| statusCode := 400;
           json := error_body (createErrorResponse (ErrorCode_value DATABASE_ERROR)
                                 "Referenced resource does not exist" None) |}
      else
        {| statusCode := 500;
           json := error_body (createErrorResponse (ErrorCode_value INTERNAL_ERROR)
                                 "An unexpected error occurred" None) |}
  end.

(** How the application of [createApp] answers a request that a route with
    these handlers matches: the handlers run in order; [next()] passes on to
    the following one and, after the last, to the 404 handler of the
    application; [next(err)] goes to [errorHandler], mounted last. *)
Fixpoint dispatch {T} (handlers : list (Handler T)) (now : timestamp) (d : Database)
    : HttpResponse T * Database :=
  match handlers with
  | [] => ({| statusCode := 404; json := not_found_body |}, d)
  | handler :: handlers =>
      match handler now d with
      | (sent response, d') => (response, d')
      | (next, d') => dispatch handlers now d'
      | (next_error err, d') => (errorHandler err, d')
      end
  end.

(** ** [ReservationController] *)
Module ReservationController.

(** [req.body] of [POST /v1/reservations]. *)
Record CreateReservationBody := {
  item_id : uuid;
  customer_id : string;
  quantity : Z
}.

Section WithEnv.
Context (env : Env).

Definition createReservation (body : CreateReservationBody) : Handler Reservation.t :=
  asyncHandler
    (reservation ← serve (ReservationService.createReservation env
                            {| input_itemId := item_id body;
                               input_customerId := customer_id body;
                               input_quantity := quantity body |});
     mret {| statusCode := 201;
             json := success_body (createSuccessResponse reservation None) |}).

End WithEnv.

Definition confirmReservation (id : uuid) : Handler Reservation.t :=
  asyncHandler
    (reservation ← serve (ReservationService.confirmReservation id);
     mret {| statusCode := 200;
             json := success_body (createSuccessResponse reservation None) |}).

Definition cancelReservation (id : uuid) : Handler Reservation.t :=
  asyncHandler
    (reservation ← serve (ReservationService.cancelReservation id);
     mret {| statusCode := 200;
             json := success_body (createSuccessResponse reservation None) |}).

Definition getReservation (id : uuid) : Handler Reservation.t :=
  asyncHandler
    (reservation ← serve (ReservationService.getReservation id);
     mret {| statusCode := 200;
             json := success_body (createSuccessResponse reservation None) |}).

End ReservationController.

(** ** [MaintenanceController] *)
Module MaintenanceController.

Definition expireReservations : Handler ExpireReservationsResult :=
  asyncHandler
    (result ← serve MaintenanceService.expireReservations;
     mret {| statusCode := 200;
             json := success_body
               (createSuccessResponse result
                  (Some ("Successfully expired " +:+ pretty (expiredCount result)
                         +:+ " reservations"))) |}).

End MaintenanceController.

(** ** [ItemController] *)
Module ItemController.

(** [req.body] of [POST /v1/items]. *)
Record CreateItemBody := {
  name : string;
  initial_quantity : Z
}.

Definition createItem (body : CreateItemBody) : Handler Item.t :=
  asyncHandler
    (item ← ItemService.createItem
              {| input_name := name body; input_initialQuantity := initial_quantity body |};
     mret {| statusCode := 201; json := success_body (createSuccessResponse item None) |}).

Definition getItem (id : uuid) : Handler ItemWithAvailability.t :=
  asyncHandler
    (item ← serve (ItemService.getItemWithAvailability id);
     mret {| statusCode := 200; json := success_body (createSuccessResponse item None) |}).

End ItemController.

(** What the three endpoints that address one reservation have in common:
    the status is 200, 404 or 409; it is 404 exactly when no reservation has
    the id; anything but 200 leaves the tables alone and carries an error
    body; a 200 carries the reservation as the tables hold it afterwards. *)
Definition reservation_answer (id : uuid) (now : timestamp) (d : Database)
    (handler : Handler Reservation.t) : Prop :=
  let response := fst (dispatch [handler] now d) in
  let d' := snd (dispatch [handler] now d) in
  (statusCode response = 200 ∨ statusCode response = 404 ∨ statusCode response = 409)
  ∧ (statusCode response = 404 ↔ reservations d !! id = None)
  ∧ (statusCode response ≠ 200 → d' = d ∧ ∃ e, json response = error_body e)
  ∧ (statusCode response = 200 →
     ∃ row, reservations d' !! id = Some row
            ∧ json response
              = success_body
                  {| ApiSuccessResponse.data := ReservationRepository.mapToReservation (id, row);
                     ApiSuccessResponse.message := None |}).

(** How a route [validate(schema), controller] answers the request [req]:
    a request the schema rejects with a [ZodError] is answered 400
    VALIDATION_ERROR with one [{ field, message }] per issue, and one it
    fails on otherwise by the error handler, the tables being left alone in
    both cases; a request the schema accepts is answered with one of
    [codes], and the tables are as they were unless the answer is 200 or
    201. *)
Definition guarded_answer {Req T} (schema : Req → ParseResult) (req : Req)
    (controller : Handler T) (codes : list Z) (now : timestamp) (d : Database) : Prop :=
  let response := fst (dispatch [validate schema req; controller] now d) in
  let d' := snd (dispatch [validate schema req; controller] now d) in
  match schema req with
  | parsed =>
      statusCode response ∈ codes
      ∧ (statusCode response ≠ 200 → statusCode response ≠ 201 →
         d' = d ∧ ∃ e, json response = error_body e)
  | parse_ZodError errors =>
      response
      = {| statusCode := 400;
           json := error_body
             (createErrorResponse "VALIDATION_ERROR" "Validation failed"
                (Some (details_fields
                         ((λ err, (String.concat "." (path_element <$> ZodIssue.path err),
                                   ZodIssue.message err)) <$> errors)))) |}
      ∧ d' = d
  | parse_error e => response = errorHandler (thrown e) ∧ d' = d
  end.

(** ** Derived quantities of an item

    The three numbers that [create_reservation_atomic] computes under the row
    lock, as functions of the tables and the time. *)
Definition reserved_quantity (now : timestamp) (d : Database) (item_id : uuid) : Z :=
  Postgres.coalesce_sum_quantity (Postgres.active_for item_id now) (reservations d).

Definition confirmed_quantity (d : Database) (item_id : uuid) : Z :=
  Postgres.coalesce_sum_quantity (Postgres.confirmed_for item_id) (reservations d).

Definition available_quantity (now : timestamp) (d : Database) (item_id : uuid)
    (total_quantity : Z) : Z :=
  total_quantity - reserved_quantity now d item_id - confirmed_quantity d item_id.

(** ** A call among other clients

    A call that runs while other clients use the store, still within the
    instant [now]: before the n-th request of the call is served, the
    transactions that other clients committed since the previous one have
    turned the tables [d] into [f d], for [f] the n-th element of [others]
    (no element: nothing happened). *)
Fixpoint run_among {A} (p : Prog A) (others : list (Database → Database))
    (now : timestamp) (d : Database) : Outcome A * Database :=
  match p with
  | Ret a => (Resolved a, d)
  | Throw e => (Rejected e, d)
  | Now k => run_among (k now) others now d
  | Await q k =>
      let seen := match others with f :: _ => f d | [] => d end in
      let '(b, d') := exec q now seen in
      run_among (k b) (tail others) now d'
  end.

(** What it means for the outcome of a Confirm or Cancel that lost a race to
    say what state the re-read found: the call resolves with the reservation
    as re-read, or it is rejected with RESERVATION_EXPIRED, or with
    INVALID_STATUS_TRANSITION whose [currentStatus] is the status re-read. *)
Definition names_observed_state (observed : option Reservation.t)
    (outcome : Outcome Reservation.t) : Prop :=
  match outcome with
  | Resolved r => observed = Some r
  | Rejected (AppError RESERVATION_EXPIRED _ _ _) =>
      ∃ r, observed = Some r
  | Rejected (AppError INVALID_STATUS_TRANSITION _ _ (Some [(_, JsStatus s)])) =>
      ∃ r, observed = Some r ∧ Reservation.status r = s
  | _ => False
  end.

(** ** Calls in flight together

    Each thread of a pool is what is left of one call. A schedule names,
    step by step, the thread that moves next: it reads the clock, or has its
    next request served as one transaction on the current tables. The whole
    contention takes place within the instant [now]. *)
Definition step_thread {A} (p : Prog A) (now : timestamp) (d : Database)
    : Prog A * Database :=
  match p with
  | Ret a => (Ret a, d)
  | Throw e => (Throw e, d)
  | Now k => (k now, d)
  | Await q k => let '(b, d') := exec q now d in (k b, d')
  end.

Fixpoint run_pool {A} (schedule : list nat) (pool : list (Prog A))
    (now : timestamp) (d : Database) : list (Prog A) * Database :=
  match schedule with
  | [] => (pool, d)
  | i :: schedule =>
      match pool !! i with
      | Some p =>
          let '(p', d') := step_thread p now d in
          run_pool schedule (<[i := p']> pool) now d'
      | None => run_pool schedule pool now d
      end
  end.

(** The outcome of a thread that has nothing left to do. *)
Definition settled {A} (p : Prog A) : option (Outcome A) :=
  match p with
  | Ret a => Some (Resolved a)
  | Throw e => Some (Rejected e)
  | Now _ => None
  | Await _ _ => None
  end.

Definition created_pending (o : Outcome Reservation.t) : bool :=
  match o with
  | Resolved r => bool_decide (Reservation.status r = PENDING)
  | Rejected _ => false
  end.

Definition insufficient_quantity (o : Outcome Reservation.t) : bool :=
  match o with
  | Rejected (AppError INSUFFICIENT_QUANTITY _ _ _) => true
  | _ => false
  end.

Fixpoint count_if {A} (f : A → bool) (l : list A) : nat :=
  match l with
  | [] => 0
  | x :: l => ((if f x then 1 else 0) + count_if f l)%nat
  end.

(** How often thread [i] is named in a schedule. *)
Fixpoint turns (i : nat) (schedule : list nat) : nat :=
  match schedule with
  | [] => 0
  | j :: schedule => ((if decide (j = i) then 1 else 0) + turns i schedule)%nat
  end.

(** Requests that write nothing. *)
Definition read_only {B} (q : Query B) : bool :=
  match q with
  | items_select_single _ => true
  | reservations_select_single _ => true
  | reservations_select_quantity_active _ _ => true
  | reservations_select_quantity_confirmed _ => true
  | rpc_create_reservation_atomic _ _ _ _ => false
  | reservations_update_confirmed _ _ _ => false
  | reservations_update_cancelled _ _ => false
  | reservations_update_expired _ _ => false
  end.

(** [p] only reads from now on and, as long as the tables it sees satisfy
    [good], settles within [n] steps with an outcome in [Q]. *)
Fixpoint settles_within {A} (n : nat) (now : timestamp) (good : Database → Prop)
    (Q : Outcome A → Prop) (p : Prog A) {struct p} : Prop :=
  match p with
  | Ret a => Q (Resolved a)
  | Throw e => Q (Rejected e)
  | Now k =>
      match n with
      | O => False
      | S n => settles_within n now good Q (k now)
      end
  | Await q k =>
      match n with
      | O => False
      | S n =>
          read_only q = true
          ∧ ∀ d, good d → settles_within n now good Q (k (exec q now d).1)
      end
  end.

(** The progress of one of the competing calls. *)
Inductive Stage :=
| Contending
| Won (id : uuid) (row : ReservationRow.t)
| Lost.

Definition holds_row (id : uuid) (row : ReservationRow.t) (d : Database) : Prop :=
  reservations d !! id = Some row.

Definition won_outcome (o : Outcome Reservation.t) : Prop := created_pending o = true.
Definition lost_outcome (o : Outcome Reservation.t) : Prop := insufficient_quantity o = true.

(** [p] is a call for one unit of item [i] that has not reached the stored
    function yet: within [n] steps, reading only tables that hold the item,
    it sends [create_reservation_atomic] for one unit, expiring after [now];
    from there it settles as a winner if it is handed the id of a PENDING
    row that stays in the table, and as a loser if it is handed NULL. *)
Fixpoint contending (n : nat) (now : timestamp) (i : uuid) (p : Prog Reservation.t)
    {struct p} : Prop :=
  match p with
  | Ret _ => False
  | Throw _ => False
  | Now k =>
      match n with
      | O => False
      | S n => contending n now i (k now)
      end
  | Await q k =>
      match n with
      | O => False
      | S n =>
          match q in Query B return (B → Prog Reservation.t) → Prop with
          | items_select_single j => λ k,
              ∀ d, is_Some (items d !! i) →
                   contending n now i (k (exec (items_select_single j) now d).1)
          | rpc_create_reservation_atomic j _ quantity expires_at => λ k,
              j = i ∧ quantity = 1 ∧ now < expires_at
              ∧ (∀ id row,
                   ReservationRow.status row = PENDING →
                   settles_within n now (holds_row id row) won_outcome
                     (k (Data (Some id))))
              ∧ settles_within n now (λ _, True) lost_outcome (k (Data None))
          | _ => λ _, False
          end k
      end
  end.

Definition thread_ok (now : timestamp) (i : uuid) (d : Database)
    (info : Stage * nat) (p : Prog Reservation.t) : Prop :=
  match info.1 with
  | Contending => contending info.2 now i p
  | Won id row =>
      ReservationRow.status row = PENDING ∧ holds_row id row d
      ∧ settles_within info.2 now (holds_row id row) won_outcome p
  | Lost => settles_within info.2 now (λ _, True) lost_outcome p
  end.

Definition is_won (info : Stage * nat) : bool :=
  match info.1 with Won _ _ => true | _ => false end.

Definition is_lost (info : Stage * nat) : bool :=
  match info.1 with Lost => true | _ => false end.

(** What holds of a pool of calls competing for item [i], of which [N] units
    were available at the start: every thread is where its stage says, each
    winner took one unit, and once a call has lost nothing is left. *)
Definition pool_inv (now : timestamp) (i : uuid) (item : ItemRow.t) (N : Z)
    (infos : list (Stage * nat)) (pool : list (Prog Reservation.t)) (d : Database)
    : Prop :=
  Forall2 (thread_ok now i d) infos pool
  ∧ items d !! i = Some item
  ∧ available_quantity now d i (ItemRow.total_quantity item)
    = N - Z.of_nat (count_if is_won infos)
  ∧ 0 ≤ available_quantity now d i (ItemRow.total_quantity item)
  ∧ ((0 < count_if is_lost infos)%nat →
     available_quantity now d i (ItemRow.total_quantity item) = 0).

(** ** Two calls in flight, every order of their requests *)

Definition is_settled {A} (p : Prog A) : bool :=
  match p with
  | Ret _ => true
  | Throw _ => true
  | Now _ => false
  | Await _ _ => false
  end.

(** The thread at its next request: the clock readings before it are taken. *)
Fixpoint advance {A} (p : Prog A) (now : timestamp) : Prog A :=
  match p with
  | Now k => advance (k now) now
  | _ => p
  end.

(** [p] settles within [n] steps, whatever the store answers. *)
Fixpoint settles_in {A} (n : nat) (now : timestamp) (p : Prog A) {struct p} : Prop :=
  match p with
  | Ret _ => True
  | Throw _ => True
  | Now k =>
      match n with
      | O => False
      | S n => settles_in n now (k now)
      end
  | Await q k =>
      match n with
      | O => False
      | S n => ∀ b, settles_in n now (k b)
      end
  end.

(** [Q] holds of the pool and the tables once every thread has settled, in
    whatever order the requests of the threads are served. The threads of
    [pool] stand at their next request; [fuel] bounds the number of requests
    in all. *)
Fixpoint every_order {A} (fuel : nat) (now : timestamp)
    (Q : list (Prog A) → Database → Prop) (pool : list (Prog A)) (d : Database) : Prop :=
  if forallb is_settled pool then Q pool d
  else
    match fuel with
    | O => False
    | S fuel =>
        ∀ i p, pool !! i = Some p → is_settled p = false →
          every_order fuel now Q
            (<[i := advance (step_thread p now d).1 now]> pool) (step_thread p now d).2
    end.

(** A call that was rejected with status 409 and one of [codes]. *)
Definition refused_with (codes : list ErrorCode) (p : Prog Reservation.t) : Prop :=
  ∃ code message details, p = Throw (AppError code message 409 details) ∧ code ∈ codes.

(** How a Confirm (thread 0) and a Cancel (thread 1) of the PENDING
    reservation [row] end: the Confirm resolved, the row is stored CONFIRMED
    and the Cancel was refused; or the Cancel resolved, the row is stored
    CANCELLED and the Confirm was refused. Nothing else changed. *)
Definition confirm_or_cancel (now : timestamp) (id : uuid) (row : ReservationRow.t)
    (d : Database) (pool : list (Prog Reservation.t)) (d' : Database) : Prop :=
  (∃ loser,
     pool = [Ret (ReservationRepository.mapToReservation (id, Postgres.set_confirmed now row));
             loser]
     ∧ refused_with [INVALID_STATUS_TRANSITION; CANCELLATION_FAILED] loser
     ∧ d' = with_reservations d (<[id := Postgres.set_confirmed now row]> (reservations d)))
  ∨ (∃ loser,
       pool = [loser;
               Ret (ReservationRepository.mapToReservation
                      (id, Postgres.set_cancelled now row))]
       ∧ refused_with [INVALID_STATUS_TRANSITION; CONFIRMATION_FAILED] loser
       ∧ d' = with_reservations d (<[id := Postgres.set_cancelled now row]> (reservations d))).

(** ** Histories of calls

    The four operations of the lifecycle, the tables each leaves when it runs
    alone at [now], and the states that sequences of them reach as time goes
    by, from tables that hold items only. *)
Inductive Operation :=
| CreateReservation (input : CreateReservationInput)
| Confirm (id : uuid)
| Cancel (id : uuid)
| ExpireDue.

Definition perform (env : Env) (op : Operation) (now : timestamp) (d : Database) : Database :=
  match op with
  | CreateReservation input => snd (run (ReservationService.createReservation env input) now d)
  | Confirm id => snd (run (ReservationService.confirmReservation id) now d)
  | Cancel id => snd (run (ReservationService.cancelReservation id) now d)
  | ExpireDue => snd (run MaintenanceService.expireReservations now d)
  end.

(** Items satisfy [CHECK (total_quantity > 0)]; no reservation yet. *)
Definition initial (d : Database) : Prop :=
  reservations d = ∅
  ∧ ∀ id item, items d !! id = Some item → 0 < ItemRow.total_quantity item.

Inductive reachable (env : Env) : timestamp → Database → Prop :=
| reachable_initial now d :
    initial d → reachable env now d
| reachable_later now later d :
    reachable env now d → now ≤ later → reachable env later d
| reachable_perform now d op :
    reachable env now d → reachable env now (perform env op now d).

(** The sum of a weight over all rows of the table. *)
Definition wsum (w : ReservationRow.t → Z) (table : gmap uuid ReservationRow.t) : Z :=
  sumZ ((λ row, w row.2) <$> map_to_list table).

(** Every stored reservation satisfies [CHECK (quantity > 0)]. *)
Definition quantities_positive (d : Database) : Prop :=
  ∀ id row, reservations d !! id = Some row → 0 < ReservationRow.quantity row.

(** No item is oversold at [now]: what is confirmed plus what is held by
    PENDING reservations that have not expired does not exceed the stock. *)
Definition never_oversold (now : timestamp) (d : Database) : Prop :=
  ∀ id item,
    items d !! id = Some item →
    confirmed_quantity d id + reserved_quantity now d id ≤ ItemRow.total_quantity item.

(** What one row counts for in [confirmed + reserved] of item [i] at [now]. *)
Definition held (now : timestamp) (i : uuid) (r : ReservationRow.t) : Z :=
  (if decide (Postgres.confirmed_for i r) then ReservationRow.quantity r else 0)
  + (if decide (Postgres.active_for i now r) then ReservationRow.quantity r else 0).

(** ** What the store keeps *)

(** A stored reservation carries the timestamp of the transition it went
    through, and no other. *)
Definition coherent (r : ReservationRow.t) : Prop :=
  match ReservationRow.status r with
  | PENDING =>
      ReservationRow.confirmed_at r = None ∧ ReservationRow.cancelled_at r = None
      ∧ ReservationRow.expired_at r = None
  | CONFIRMED =>
      is_Some (ReservationRow.confirmed_at r) ∧ ReservationRow.cancelled_at r = None
      ∧ ReservationRow.expired_at r = None
  | CANCELLED =>
      ReservationRow.confirmed_at r = None ∧ is_Some (ReservationRow.cancelled_at r)
      ∧ ReservationRow.expired_at r = None
  | EXPIRED =>
      ReservationRow.confirmed_at r = None ∧ ReservationRow.cancelled_at r = None
      ∧ is_Some (ReservationRow.expired_at r)
  end.

(** The constraints of [migration.sql] on [reservations] (foreign key,
    [quantity > 0], [expires_at > created_at]) and the coherence of each
    row. *)
Definition store_consistent (d : Database) : Prop :=
  ∀ id row, reservations d !! id = Some row →
    is_Some (items d !! ReservationRow.item_id row)
    ∧ 0 < ReservationRow.quantity row
    ∧ ReservationRow.created_at row < ReservationRow.expires_at row
    ∧ coherent row.

(** The columns that say what was reserved, for whom and until when. *)
Definition same_booking (row row' : ReservationRow.t) : Prop :=
  ReservationRow.item_id row' = ReservationRow.item_id row
  ∧ ReservationRow.customer_id row' = ReservationRow.customer_id row
  ∧ ReservationRow.quantity row' = ReservationRow.quantity row
  ∧ ReservationRow.expires_at row' = ReservationRow.expires_at row
  ∧ ReservationRow.created_at row' = ReservationRow.created_at row.

(** The tables [d'] continue [d]: the items are the same; every reservation
    of [d] is still there, for the same booking; one that had left PENDING is
    exactly as it was. *)
Definition continues (d d' : Database) : Prop :=
  items d' = items d
  ∧ ∀ id row, reservations d !! id = Some row →
      ∃ row', reservations d' !! id = Some row'
              ∧ same_booking row row'
              ∧ (ReservationRow.status row ≠ PENDING → row' = row).

(** The timestamps of a row make sense at [now]: it was created in the past;
    if CONFIRMED, that happened after its creation and strictly before its
    expiry; if CANCELLED, after its creation; if EXPIRED, at or after its
    expiry. *)
Definition timely (now : timestamp) (r : ReservationRow.t) : Prop :=
  ReservationRow.created_at r ≤ now
  ∧ match ReservationRow.status r with
    | PENDING => True
    | CONFIRMED =>
        ∃ t, ReservationRow.confirmed_at r = Some t
             ∧ ReservationRow.created_at r ≤ t ∧ t < ReservationRow.expires_at r ∧ t ≤ now
    | CANCELLED =>
        ∃ t, ReservationRow.cancelled_at r = Some t
             ∧ ReservationRow.created_at r ≤ t ∧ t ≤ now
    | EXPIRED =>
        ∃ t, ReservationRow.expired_at r = Some t
             ∧ ReservationRow.expires_at r ≤ t ∧ t ≤ now
    end.

Definition rows_timely (env : Env) (now : timestamp) (d : Database) : Prop :=
  ∀ id row, reservations d !! id = Some row →
    timely now row
    ∧ ReservationRow.expires_at row
      = ReservationRow.created_at row + RESERVATION_EXPIRY_MS env.

(** Every item satisfies [CHECK (total_quantity > 0)]. *)
Definition stock_positive (d : Database) : Prop :=
  ∀ id item, items d !! id = Some item → 0 < ItemRow.total_quantity item.

(** ** Histories of the whole API

    The lifecycle operations and the creation of items, from the tables as
    the migration leaves them: empty. *)
Inductive ApiOperation :=
| CreateItem (input : CreateItemInput)
| Lifecycle (op : Operation).

Definition api_perform (env : Env) (op : ApiOperation) (now : timestamp) (d : Database)
    : Database :=
  match op with
  | CreateItem input => snd (ItemService.createItem input now d)
  | Lifecycle op => perform env op now d
  end.

Definition empty_store : Database := {| items := ∅; reservations := ∅ |}.

Inductive api_reachable (env : Env) : timestamp → Database → Prop :=
| api_reachable_empty now : api_reachable env now empty_store
| api_reachable_later now later d :
    api_reachable env now d → now ≤ later → api_reachable env later d
| api_reachable_perform now d op :
    api_reachable env now d → api_reachable env now (api_perform env op now d).

(** ** Sample data *)
Definition shirt : ItemRow.t :=
  {| ItemRow.name := "White T-Shirt"; ItemRow.total_quantity := 2;
     ItemRow.created_at := 0; ItemRow.updated_at := 0 |}.

(** One item, two units, no reservation. *)
Definition shop : Database := {| items := {[ 1%positive := shirt ]}; reservations := ∅ |}.

Definition one_shirt : CreateReservationInput :=
  {| input_itemId := 1%positive; input_customerId := "customer_001"; input_quantity := 1 |}.

Definition three_shirts : CreateReservationInput :=
  {| input_itemId := 1%positive; input_customerId := "customer_002"; input_quantity := 3 |}.

Definition ten_minutes : Env := {| RESERVATION_EXPIRY_MINUTES := 10 |}.
Definition zero_minutes : Env := {| RESERVATION_EXPIRY_MINUTES := 0 |}.

(** [shop] after [one_shirt] was reserved at time 1000 with the ten minute
    expiry: reservation 1 is PENDING and expires at 601000. *)
Definition shop_one_pending : Database :=
  snd (run (ReservationService.createReservation ten_minutes one_shirt) 1000 shop).

(** The row of reservation 1 in [shop_one_pending]. *)
Definition pending_shirt : ReservationRow.t :=
  Postgres.inserted_row 1000 1 "customer_001" 1 PENDING 601000.

(** [shop_one_pending] after reservation 1 was confirmed at 2000, a second
    unit was reserved at 3000 and left to expire, and the sweep ran at
    700000. *)
Definition shop_after_sweep : Database :=
  perform ten_minutes ExpireDue 700000
    (perform ten_minutes (CreateReservation one_shirt) 3000
       (perform ten_minutes (Confirm 1) 2000 shop_one_pending)).

(** Three callers after the two shirts, and a schedule that gives each of
    them six turns. *)
Definition three_callers : list CreateReservationInput :=
  [ {| input_itemId := 1%positive; input_customerId := "customer_001"; input_quantity := 1 |};
    {| input_itemId := 1%positive; input_customerId := "customer_002"; input_quantity := 1 |};
    {| input_itemId := 1%positive; input_customerId := "customer_003"; input_quantity := 1 |} ].

Definition round_robin : list nat :=
  [0; 1; 2; 0; 1; 2; 0; 1; 2; 0; 1; 2; 0; 1; 2; 0; 1; 2]%nat.

(** [shop_one_pending] after reservation 1 was confirmed at 2000 and a second
    unit was reserved at 3000: what [shop_after_sweep] was before the sweep. *)
Definition shop_before_sweep : Database :=
  perform ten_minutes (CreateReservation one_shirt) 3000
    (perform ten_minutes (Confirm 1) 2000 shop_one_pending).

Definition no_shirt : CreateReservationInput :=
  {| input_itemId := 1%positive; input_customerId := "customer_003"; input_quantity := 0 |}.

Definition white_shirts : CreateItemInput :=
  {| input_name := "White T-Shirt"; input_initialQuantity := 2 |}.

Definition blue_jeans : CreateItemInput :=
  {| input_name := "Blue Jeans"; input_initialQuantity := 50 |}.

(** Three shirts, as the deprecated [create] would be asked for them. *)
Definition three_shirts_params : CreateReservationParams :=
  {| params_itemId := 1%positive; params_customerId := "customer_002";
     params_quantity := 3; params_expiresAt := 601000 |}.

(** Another client takes item 1 out of the catalogue. *)
Definition remove_shirt (d : Database) : Database := with_items d (delete 1%positive (items d)).

(** Thread 0 and thread 1 in turns, six turns each. *)
Definition in_turns : list nat := [0; 1; 0; 1; 0; 1; 0; 1; 0; 1; 0; 1]%nat.

(** * Properties *)

(** ** Running the repository methods alone *)

Lemma run_bind {A B} (p : Prog A) (f : A → Prog B) now d :
  run (p ≫= f) now d =
  match run p now d with
  | (Resolved a, d') => run (f a) now d'
  | (Rejected e, d') => (Rejected e, d')
  end.
Proof.
  unfold mbind, Prog_bind. revert d.
  induction p as [a|e|k IH|C q k IH]; intros d; simpl; try done.
  destruct (exec q now d) as [b d']. apply IH.
Qed.

Lemma run_findById now d id :
  run (ReservationRepository.findById id) now d =
  (Resolved (ReservationRepository.mapToReservation <$> ((id,.) <$> reservations d !! id)), d).
Proof.
  unfold ReservationRepository.findById. simpl.
  unfold Postgres.select_eq_id. by destruct (reservations d !! id).
Qed.

Lemma run_try_catch {A} (p : Prog A) (h : Exception → Prog A) now d :
  run (try_catch p h) now d =
  match run p now d with
  | (Resolved a, d') => (Resolved a, d')
  | (Rejected e, d') => run (h e) now d'
  end.
Proof.
  revert d. induction p as [a|e|k IH|C q k IH]; intros d; simpl; try done.
  destruct (exec q now d) as [b d']. apply IH.
Qed.

Lemma with_reservations_id d : with_reservations d (reservations d) = d.
Proof. by destruct d. Qed.

Lemma run_item_findById now d id :
  run (ItemRepository.findById id) now d =
  (Resolved (ItemRepository.mapToItem <$> ((id,.) <$> items d !! id)), d).
Proof.
  unfold ItemRepository.findById. simpl.
  unfold Postgres.select_eq_id. by destruct (items d !! id).
Qed.

Lemma run_repo_confirmReservation now d id :
  run (ReservationRepository.confirmReservation id) now d =
  match reservations d !! id with
  | Some row =>
      if decide (Postgres.pending_unexpired now row)
      then (Resolved (Some (ReservationRepository.mapToReservation
                              (id, Postgres.set_confirmed now row))),
            with_reservations d (<[id := Postgres.set_confirmed now row]> (reservations d)))
      else (Resolved None, d)
  | None => (Resolved None, d)
  end.
Proof.
  unfold ReservationRepository.confirmReservation. simpl.
  unfold Postgres.update_eq_id.
  destruct (reservations d !! id) as [row|]; simpl.
  - destruct (decide (Postgres.pending_unexpired now row)); simpl; [done|].
    by rewrite with_reservations_id.
  - by rewrite with_reservations_id.
Qed.

Lemma run_repo_cancelReservation now d id :
  run (ReservationRepository.cancelReservation id) now d =
  match reservations d !! id with
  | Some row =>
      if decide (Postgres.pending row)
      then (Resolved (Some (ReservationRepository.mapToReservation
                              (id, Postgres.set_cancelled now row))),
            with_reservations d (<[id := Postgres.set_cancelled now row]> (reservations d)))
      else (Resolved None, d)
  | None => (Resolved None, d)
  end.
Proof.
  unfold ReservationRepository.cancelReservation. simpl.
  unfold Postgres.update_eq_id.
  destruct (reservations d !! id) as [row|]; simpl.
  - destruct (decide (Postgres.pending row)); simpl; [done|].
    by rewrite with_reservations_id.
  - by rewrite with_reservations_id.
Qed.

Lemma run_await {B} (q : Query B) now d :
  run (await q) now d = (Resolved (exec q now d).1, (exec q now d).2).
Proof. unfold await. simpl. by destruct (exec q now d). Qed.

Local Arguments run : simpl never.
Local Arguments mbind : simpl never.
Local Arguments mret : simpl never.

(** ** Cancel *)

Lemma run_cancelReservation now d id :
  run (ReservationService.cancelReservation id) now d =
  match reservations d !! id with
  | None =>
      (Rejected (AppError RESERVATION_NOT_FOUND
                   ("Reservation with ID " +:+ pretty id +:+ " not found") 404 None), d)
  | Some row =>
      match ReservationRow.status row with
      | CANCELLED | EXPIRED =>
          (Resolved (ReservationRepository.mapToReservation (id, row)), d)
      | CONFIRMED =>
          (Rejected (AppError INVALID_STATUS_TRANSITION
                       "Cannot cancel confirmed reservation" 409
                       (Some [("currentStatus", JsStatus CONFIRMED)])), d)
      | PENDING =>
          (Resolved (ReservationRepository.mapToReservation
                       (id, Postgres.set_cancelled now row)),
           with_reservations d
             (<[id := Postgres.set_cancelled now row]> (reservations d)))
      end
  end.
Proof.
  unfold ReservationService.cancelReservation.
  rewrite run_bind, run_findById.
  destruct (reservations d !! id) as [row|] eqn:Hrow; simpl; [|done].
  destruct (ReservationRow.status row) eqn:Hs; simpl; try done.
  rewrite run_bind, run_repo_cancelReservation, Hrow.
  by rewrite decide_True by done.
Qed.


(** ** Confirm *)

Lemma run_confirmReservation now d id :
  run (ReservationService.confirmReservation id) now d =
  match reservations d !! id with
  | None =>
      (Rejected (AppError RESERVATION_NOT_FOUND
                   ("Reservation with ID " +:+ pretty id +:+ " not found") 404 None), d)
  | Some row =>
      match ReservationRow.status row with
      | CONFIRMED => (Resolved (ReservationRepository.mapToReservation (id, row)), d)
      | CANCELLED | EXPIRED =>
          (Rejected (AppError INVALID_STATUS_TRANSITION
                       ("Cannot confirm " +:+ status_name (ReservationRow.status row)
                        +:+ " reservation")
                       409 (Some [("currentStatus", JsStatus (ReservationRow.status row))])),
           d)
      | PENDING =>
          if decide (ReservationRow.expires_at row < now) then
            (Rejected (AppError RESERVATION_EXPIRED "Cannot confirm expired reservation" 409
                         (Some [("expiredAt", JsDate (ReservationRow.expires_at row))])), d)
          else if decide (now < ReservationRow.expires_at row) then
            (Resolved (ReservationRepository.mapToReservation
                         (id, Postgres.set_confirmed now row)),
             with_reservations d
               (<[id := Postgres.set_confirmed now row]> (reservations d)))
          else
            (Rejected (AppError CONFIRMATION_FAILED
                         "Failed to confirm reservation (may have been expired or cancelled concurrently)"
                         409 None), d)
      end
  end.
Proof.
  unfold ReservationService.confirmReservation.
  rewrite run_bind, run_findById.
  destruct (reservations d !! id) as [row|] eqn:Hrow; simpl; [|done].
  destruct (ReservationRow.status row) eqn:Hs; simpl; try done.
  unfold new_Date, run at 1; simpl. fold (@run Reservation.t).
  destruct (decide (ReservationRow.expires_at row < now)); [done|].
  rewrite run_bind, run_repo_confirmReservation, Hrow.
  destruct (decide (now < ReservationRow.expires_at row)).
  - by rewrite decide_True by done.
  - rewrite decide_False by (unfold Postgres.pending_unexpired; tauto).
    rewrite run_bind, run_findById, Hrow. simpl. by rewrite Hs.
Qed.

(** A PENDING reservation whose expiry lies strictly before the call is
    refused with RESERVATION_EXPIRED, and nothing is written. *)
Lemma confirmReservation_expired now d id row :
  reservations d !! id = Some row →
  ReservationRow.status row = PENDING →
  ReservationRow.expires_at row < now →
  run (ReservationService.confirmReservation id) now d =
  (Rejected (AppError RESERVATION_EXPIRED "Cannot confirm expired reservation" 409
               (Some [("expiredAt", JsDate (ReservationRow.expires_at row))])), d).
Proof.
  intros Hrow Hs Hlt. rewrite run_confirmReservation, Hrow, Hs.
  by rewrite decide_True by done.
Qed.

(** A PENDING reservation with [expires_at ≤ now] is never confirmed: the
    call is rejected and nothing is written. *)
Lemma confirmReservation_due_not_confirmed now d id row :
  reservations d !! id = Some row →
  ReservationRow.status row = PENDING →
  ReservationRow.expires_at row ≤ now →
  ∃ e, run (ReservationService.confirmReservation id) now d = (Rejected e, d).
Proof.
  intros Hrow Hs Hle. rewrite run_confirmReservation, Hrow, Hs.
  destruct (decide (ReservationRow.expires_at row < now)); [by eexists|].
  rewrite decide_False by lia. by eexists.
Qed.

(** C4, at the instant of expiry. When Confirm is called at the very instant
    [expires_at] of a PENDING reservation, the service's own test
    [expiresAt < now] lets the call through, the guarded update
    ([expires_at > now]) changes no row, the re-read still finds PENDING, and
    the call is rejected with CONFIRMATION_FAILED and no [expiredAt] detail,
    not with RESERVATION_EXPIRED. Nothing is written. *)
Theorem confirmReservation_at_expiry_instant now d id row :
  reservations d !! id = Some row →
  ReservationRow.status row = PENDING →
  ReservationRow.expires_at row = now →
  run (ReservationService.confirmReservation id) now d =
  (Rejected (AppError CONFIRMATION_FAILED
               "Failed to confirm reservation (may have been expired or cancelled concurrently)"
               409 None), d).
Proof.
  intros Hrow Hs Hle. rewrite run_confirmReservation, Hrow, Hs.
  rewrite !decide_False by lia. done.
Qed.

(** C6. Confirm on a CONFIRMED reservation returns it as stored and writes
    nothing. Hence, whenever a first Confirm succeeds, the reservation it
    returns is CONFIRMED, and a second Confirm, whenever it is made, returns
    that very reservation (so the same [confirmedAt]) and leaves the tables
    as the first call left them: the quantity is counted as confirmed once. *)
Theorem confirmReservation_idempotent :
  (∀ now d id row,
     reservations d !! id = Some row →
     ReservationRow.status row = CONFIRMED →
     run (ReservationService.confirmReservation id) now d =
     (Resolved (ReservationRepository.mapToReservation (id, row)), d))
  ∧
  (∀ now1 now2 d id r d1,
     run (ReservationService.confirmReservation id) now1 d = (Resolved r, d1) →
     Reservation.status r = CONFIRMED
     ∧ run (ReservationService.confirmReservation id) now2 d1 = (Resolved r, d1)).
Proof.
  split.
  - intros now d id row Hrow Hs. by rewrite run_confirmReservation, Hrow, Hs.
  - intros now1 now2 d id r d1. rewrite run_confirmReservation.
    destruct (reservations d !! id) as [row|] eqn:Hrow; [|done].
    destruct (ReservationRow.status row) eqn:Hs; try done.
    + destruct (decide (ReservationRow.expires_at row < now1)); [done|].
      destruct (decide (now1 < ReservationRow.expires_at row)); [|done].
      intros [= <- <-]. split; [done|].
      rewrite run_confirmReservation. simpl. by rewrite lookup_insert_eq.
    + intros [= <- <-]. split; [done|].
      by rewrite run_confirmReservation, Hrow, Hs.
Qed.

(** ** ExpireDue *)

Lemma run_expireReservations now d :
  run MaintenanceService.expireReservations now d =
  (Resolved
     {| expiredCount :=
          Z.of_nat (length (Postgres.select_where (Postgres.pending_due now)
                              (reservations d)).*1);
        expiredReservationIds :=
          (Postgres.select_where (Postgres.pending_due now) (reservations d)).*1 |},
   with_reservations d
     ((λ row, if decide (Postgres.pending_due now row)
              then Postgres.set_expired now row else row) <$> reservations d)).
Proof.
  unfold MaintenanceService.expireReservations,
    ReservationRepository.expireReservations, run; simpl.
  unfold Postgres.update_where. simpl.
  by rewrite <- !list_fmap_compose.
Qed.

Lemma elem_of_select_where (P : ReservationRow.t → Prop) `{∀ r, Decision (P r)}
    (table : gmap uuid ReservationRow.t) id :
  id ∈ (Postgres.select_where P table).*1 ↔ ∃ row, table !! id = Some row ∧ P row.
Proof.
  unfold Postgres.select_where. rewrite list_elem_of_fmap. split.
  - intros [[i row] [-> [HP Hin]%list_elem_of_filter]].
    apply elem_of_map_to_list in Hin. by exists row.
  - intros [row [Hrow HP]]. exists (id, row). split; [done|].
    apply list_elem_of_filter. split; [done|]. by apply elem_of_map_to_list.
Qed.

Lemma NoDup_select_where (P : ReservationRow.t → Prop) `{∀ r, Decision (P r)}
    (table : gmap uuid ReservationRow.t) :
  NoDup (Postgres.select_where P table).*1.
Proof.
  eapply sublist_NoDup; [apply (NoDup_fst_map_to_list table)|].
  apply fmap_sublist, sublist_filter.
Qed.

Lemma select_where_nil (P : ReservationRow.t → Prop) `{∀ r, Decision (P r)}
    (table : gmap uuid ReservationRow.t) :
  (∀ id row, table !! id = Some row → ¬ P row) →
  Postgres.select_where P table = [].
Proof.
  intros Hno. unfold Postgres.select_where.
  destruct (filter _ _) as [|[i row] l] eqn:Hf; [done|].
  assert (Hin : (i, row) ∈ filter (λ kv : uuid * ReservationRow.t, P kv.2)
                              (map_to_list table)) by (rewrite Hf; left).
  apply list_elem_of_filter in Hin as [HP Hin].
  apply elem_of_map_to_list in Hin. by destruct (Hno i row).
Qed.


(** C10. Cancel does not look at [expires_at]: a PENDING reservation, also
    one whose expiry has passed and that no sweep has touched yet, is
    returned and stored as CANCELLED with [cancelled_at] set to the time of
    the call and [expired_at] left as it was. A later ExpireDue does not
    report it and leaves it CANCELLED. *)
Theorem cancelReservation_ignores_expiry now d id row :
  reservations d !! id = Some row →
  ReservationRow.status row = PENDING →
  let cancelled := run (ReservationService.cancelReservation id) now d in
  fst cancelled
  = Resolved (ReservationRepository.mapToReservation (id, Postgres.set_cancelled now row))
  ∧ reservations (snd cancelled) !! id = Some (Postgres.set_cancelled now row)
  ∧ ReservationRow.status (Postgres.set_cancelled now row) = CANCELLED
  ∧ ReservationRow.cancelled_at (Postgres.set_cancelled now row) = Some now
  ∧ ReservationRow.expired_at (Postgres.set_cancelled now row)
    = ReservationRow.expired_at row
  ∧ ∀ later,
      let swept := run MaintenanceService.expireReservations later (snd cancelled) in
      (∃ result, fst swept = Resolved result ∧ id ∉ expiredReservationIds result)
      ∧ reservations (snd swept) !! id = Some (Postgres.set_cancelled now row).
Proof.
  intros Hrow Hs cancelled. subst cancelled.
  rewrite run_cancelReservation, Hrow, Hs. cbn [fst snd reservations with_reservations].
  rewrite lookup_insert_eq. do 5 (split; [done|]).
  intros later. rewrite run_expireReservations. simpl. split.
  - eexists. split; [reflexivity|]. simpl.
    rewrite elem_of_select_where. intros [row' [Hrow' [Hs' _]]].
    rewrite lookup_insert_eq in Hrow'. by inversion Hrow'; subst.
  - rewrite lookup_fmap, lookup_insert_eq. cbn [fmap option_fmap option_map].
    rewrite decide_False; [done|]. by intros [Hs' _].
Qed.

(** ** Sums over the reservations table *)

#[global] Instance sumZ_Permutation : Proper ((≡ₚ) ==> (=)) sumZ.
Proof.
  intros l1 l2 Hperm. unfold sumZ.
  induction Hperm; simpl; lia.
Qed.

Lemma reduce_quantity_sumZ data : reduce_quantity data = sumZ data.
Proof.
  assert (Hor : ∀ x, or_zero x = x).
  { intros x. unfold or_zero. case_decide; lia. }
  unfold reduce_quantity. rewrite Hor.
  assert (Hgen : ∀ l acc, fold_left (λ sum quantity, sum + or_zero quantity) l acc
                          = acc + sumZ l).
  { induction l as [|x l IH]; intros acc; simpl; [unfold sumZ; simpl; lia|].
    rewrite IH, Hor. unfold sumZ. simpl. lia. }
  rewrite Hgen. lia.
Qed.

Lemma coalesce_sum_quantity_wsum (P : ReservationRow.t → Prop) `{∀ r, Decision (P r)} table :
  Postgres.coalesce_sum_quantity P table
  = wsum (λ r, if decide (P r) then ReservationRow.quantity r else 0) table.
Proof.
  unfold Postgres.coalesce_sum_quantity, Postgres.select_quantity,
    Postgres.select_where, wsum.
  induction (map_to_list table) as [|[i r] l IH]; [done|].
  rewrite filter_cons, fmap_cons. cbn [snd].
  destruct (decide (P r)) as [HP|HP].
  - rewrite fmap_cons. unfold sumZ in *. cbn [foldr snd]. rewrite IH. done.
  - unfold sumZ in *. cbn [foldr]. rewrite IH. lia.
Qed.

Lemma wsum_empty w : wsum w ∅ = 0.
Proof. unfold wsum. by rewrite map_to_list_empty. Qed.

Lemma wsum_insert w table id row :
  table !! id = None → wsum w (<[id := row]> table) = w row + wsum w table.
Proof. intros Hid. unfold wsum. by rewrite map_to_list_insert. Qed.

Lemma wsum_update w table id row row' :
  table !! id = Some row →
  wsum w (<[id := row']> table) = wsum w table - w row + w row'.
Proof.
  intros Hid.
  rewrite <- (insert_delete_eq table id row').
  rewrite wsum_insert by apply lookup_delete_eq.
  rewrite <- (insert_id table id row) at 2 by done.
  rewrite <- (insert_delete_eq table id row).
  rewrite wsum_insert by apply lookup_delete_eq. lia.
Qed.

Lemma wsum_fmap w (f : ReservationRow.t → ReservationRow.t) table :
  wsum w (f <$> table) = wsum (w ∘ f) table.
Proof.
  unfold wsum. by rewrite map_to_list_fmap, <- list_fmap_compose.
Qed.

Lemma sumZ_cons x l : sumZ (x :: l) = x + sumZ l.
Proof. done. Qed.

Lemma sumZ_fmap_le {A} (f g : A → Z) (l : list A) :
  (∀ x, x ∈ l → f x ≤ g x) → sumZ (f <$> l) ≤ sumZ (g <$> l).
Proof.
  induction l as [|x l IH]; intros Hle; [done|].
  rewrite !fmap_cons, !sumZ_cons.
  assert (f x ≤ g x) by (apply Hle; left).
  assert (sumZ (f <$> l) ≤ sumZ (g <$> l)) by (apply IH; intros y Hy; apply Hle; by right).
  lia.
Qed.

Lemma wsum_mono w w' table :
  (∀ id row, table !! id = Some row → w row ≤ w' row) →
  wsum w table ≤ wsum w' table.
Proof.
  intros Hle. unfold wsum. apply sumZ_fmap_le.
  intros [i r] Hin. apply elem_of_map_to_list in Hin. by apply (Hle i).
Qed.

Lemma wsum_plus w1 w2 table :
  wsum w1 table + wsum w2 table = wsum (λ r, w1 r + w2 r) table.
Proof.
  unfold wsum. induction (map_to_list table) as [|kv l IH]; [done|].
  rewrite !fmap_cons, !sumZ_cons. lia.
Qed.

(** ** CreateReservation *)

Lemma run_getActiveReservedQuantity now d item_id :
  run (ReservationRepository.getActiveReservedQuantity item_id) now d
  = (Resolved (reserved_quantity now d item_id), d).
Proof.
  unfold ReservationRepository.getActiveReservedQuantity, run; simpl.
  by rewrite reduce_quantity_sumZ.
Qed.

Lemma run_getConfirmedQuantity now d item_id :
  run (ReservationRepository.getConfirmedQuantity item_id) now d
  = (Resolved (confirmed_quantity d item_id), d).
Proof.
  unfold ReservationRepository.getConfirmedQuantity, run; simpl.
  by rewrite reduce_quantity_sumZ.
Qed.

Lemma uuid_generate_v4_fresh {V} (table : gmap uuid V) :
  table !! Postgres.uuid_generate_v4 table = None.
Proof. apply not_elem_of_dom, is_fresh. Qed.

Lemma run_createAtomic now d params :
  run (ReservationRepository.createAtomic params) now d =
  match Postgres.create_reservation_atomic now (params_itemId params)
          (params_customerId params) (params_quantity params)
          (params_expiresAt params) d with
  | (Failure error, d') =>
      (Rejected
         (if includes (pg_message error) "Item not found"
          then Error ("Item not found: " +:+ pretty (params_itemId params))
          else Error ("Failed to create reservation: " +:+ pg_message error)), d')
  | (Data None, d') => (Resolved None, d')
  | (Data (Some reservationId), d') =>
      match reservations d' !! reservationId with
      | None => (Rejected (Error "Reservation created but not found"), d')
      | Some row =>
          (Resolved (Some (ReservationRepository.mapToReservation (reservationId, row))),
           d')
      end
  end.
Proof.
  unfold ReservationRepository.createAtomic.
  rewrite run_try_catch, run_bind, run_await. cbn [exec].
  destruct (Postgres.create_reservation_atomic _ _ _ _ _ _) as [[[rid|]|error] d'];
    cbn [fst snd].
  - rewrite run_bind, run_findById.
    destruct (reservations d' !! rid) as [row|]; done.
  - done.
  - by destruct (includes (pg_message error) "Item not found").
Qed.

Lemma run_Date_now now d : run Date_now now d = (Resolved now, d).
Proof. done. Qed.

Lemma check_violation_not_item_not_found constraint :
  constraint = "reservations_quantity_check"
  ∨ constraint = "reservations_expires_after_creation" →
  includes (pg_message (Postgres.check_violation constraint)) "Item not found" = false.
Proof. by intros [-> | ->]; vm_compute. Qed.

(** The call by cases, in the order in which the code decides them. *)
Lemma run_createReservation env input now d :
  run (ReservationService.createReservation env input) now d =
  match items d !! input_itemId input with
  | None =>
      (Rejected (AppError ITEM_NOT_FOUND
                   ("Item with ID " +:+ pretty (input_itemId input) +:+ " not found")
                   404 None), d)
  | Some item =>
      let available :=
        available_quantity now d (input_itemId input) (ItemRow.total_quantity item) in
      if decide (available < input_quantity input) then
        (Rejected (AppError INSUFFICIENT_QUANTITY
                     ("Cannot reserve " +:+ pretty (input_quantity input)
                      +:+ " units. Only " +:+ pretty available +:+ " available.")
                     409
                     (Some [("requested", JsNumber (input_quantity input));
                            ("available", JsNumber available)])), d)
      else if decide (input_quantity input ≤ 0) then
        (Rejected (Error ("Failed to create reservation: "
                          +:+ pg_message (Postgres.check_violation
                                            "reservations_quantity_check"))), d)
      else if decide (RESERVATION_EXPIRY_MS env ≤ 0) then
        (Rejected (Error ("Failed to create reservation: "
                          +:+ pg_message (Postgres.check_violation
                                            "reservations_expires_after_creation"))), d)
      else
        let id := Postgres.uuid_generate_v4 (reservations d) in
        let row := Postgres.inserted_row now (input_itemId input) (input_customerId input)
                     (input_quantity input) PENDING (now + RESERVATION_EXPIRY_MS env) in
        (Resolved (ReservationRepository.mapToReservation (id, row)),
         with_reservations d (<[id := row]> (reservations d)))
  end.
Proof.
  unfold ReservationService.createReservation.
  rewrite run_bind, run_item_findById.
  destruct (items d !! input_itemId input) as [item|] eqn:Hitem; [|done].
  cbn [fmap option_fmap option_map].
  rewrite run_bind, run_Date_now, run_bind, run_createAtomic.
  cbn [params_itemId params_customerId params_quantity params_expiresAt].
  unfold Postgres.create_reservation_atomic. rewrite Hitem.
  fold (reserved_quantity now d (input_itemId input)).
  fold (confirmed_quantity d (input_itemId input)).
  fold (available_quantity now d (input_itemId input) (ItemRow.total_quantity item)).
  cbn zeta.
  destruct (decide (available_quantity now d (input_itemId input)
                      (ItemRow.total_quantity item) < input_quantity input)).
  - rewrite run_bind, run_getActiveReservedQuantity.
    rewrite run_bind, run_getConfirmedQuantity. done.
  - unfold Postgres.insert_reservation. cbn [Postgres.inserted_row
      ReservationRow.quantity ReservationRow.expires_at ReservationRow.created_at].
    destruct (decide (input_quantity input ≤ 0)).
    { by rewrite check_violation_not_item_not_found by auto. }
    destruct (decide (now + RESERVATION_EXPIRY_MS env ≤ now)).
    { rewrite decide_True by lia.
      by rewrite check_violation_not_item_not_found by auto. }
    rewrite (decide_False (P := RESERVATION_EXPIRY_MS env ≤ 0)) by lia.
    rewrite decide_False by (by rewrite Hitem).
    cbn [reservations with_reservations]. by rewrite lookup_insert_eq.
Qed.


(** C9. Whenever CreateReservation is rejected, be it with
    INSUFFICIENT_QUANTITY, with ITEM_NOT_FOUND or with anything else, the
    tables are exactly what they were before the call. *)
Theorem createReservation_failure_leaves_tables env input now d e :
  fst (run (ReservationService.createReservation env input) now d) = Rejected e →
  snd (run (ReservationService.createReservation env input) now d) = d.
Proof.
  rewrite run_createReservation.
  destruct (items d !! input_itemId input) as [item|]; [|done].
  cbn zeta. repeat case_decide; done.
Qed.

(** ** The stock invariant *)

Lemma held_sum now d i :
  confirmed_quantity d i + reserved_quantity now d i = wsum (held now i) (reservations d).
Proof.
  unfold confirmed_quantity, reserved_quantity.
  rewrite !coalesce_sum_quantity_wsum, wsum_plus. done.
Qed.

Lemma held_nonneg now i r : 0 < ReservationRow.quantity r → 0 ≤ held now i r.
Proof. intros Hq. unfold held. repeat case_decide; lia. Qed.

Lemma held_le_quantity now i r :
  0 < ReservationRow.quantity r → held now i r ≤ ReservationRow.quantity r.
Proof.
  intros Hq. unfold held, Postgres.confirmed_for, Postgres.active_for.
  repeat case_decide; try lia. destruct_and!. congruence.
Qed.

Lemma held_other_item now i r : ReservationRow.item_id r ≠ i → held now i r = 0.
Proof.
  intros Hne. unfold held, Postgres.confirmed_for, Postgres.active_for.
  repeat case_decide; try lia; destruct_and!; done.
Qed.

Lemma held_later now later i r :
  now ≤ later → 0 < ReservationRow.quantity r → held later i r ≤ held now i r.
Proof.
  intros Hle Hq. unfold held, Postgres.confirmed_for, Postgres.active_for.
  repeat case_decide; try lia; destruct_and!; exfalso; naive_solver lia.
Qed.

Lemma held_set_confirmed now t i r :
  Postgres.pending_unexpired now r → held now i (Postgres.set_confirmed t r) = held now i r.
Proof.
  intros [Hs Hexp]. unfold held, Postgres.confirmed_for, Postgres.active_for. simpl.
  repeat case_decide; try lia; destruct_and?; try congruence; exfalso; naive_solver.
Qed.

Lemma held_set_cancelled now t i r :
  0 < ReservationRow.quantity r → held now i (Postgres.set_cancelled t r) ≤ held now i r.
Proof.
  intros Hq. pose proof (held_nonneg now i r Hq).
  unfold held, Postgres.confirmed_for, Postgres.active_for in *. simpl.
  rewrite !decide_False by (intros ?; destruct_and!; done). lia.
Qed.

Lemma held_set_expired now t i r :
  0 < ReservationRow.quantity r → held now i (Postgres.set_expired t r) ≤ held now i r.
Proof.
  intros Hq. pose proof (held_nonneg now i r Hq).
  unfold held, Postgres.confirmed_for, Postgres.active_for in *. simpl.
  rewrite !decide_False by (intros ?; destruct_and!; done). lia.
Qed.

Lemma never_oversold_later now later d :
  quantities_positive d → now ≤ later → never_oversold now d → never_oversold later d.
Proof.
  intros Hpos Hle Hinv id item Hitem. specialize (Hinv id item Hitem).
  rewrite held_sum in *.
  etrans; [|exact Hinv]. apply wsum_mono. intros k r Hr.
  apply held_later; [done|]. by apply (Hpos k).
Qed.

Lemma perform_items env op now d : items (perform env op now d) = items d.
Proof.
  destruct op as [input|id|id|]; cbn [perform].
  - rewrite run_createReservation.
    destruct (items d !! input_itemId input); [|done].
    cbn zeta. repeat case_decide; done.
  - rewrite run_confirmReservation.
    destruct (reservations d !! id) as [row|]; [|done].
    destruct (ReservationRow.status row); try done. repeat case_decide; done.
  - rewrite run_cancelReservation.
    destruct (reservations d !! id) as [row|]; [|done].
    destruct (ReservationRow.status row); done.
  - by rewrite run_expireReservations.
Qed.

Lemma perform_quantities_positive env op now d :
  quantities_positive d → quantities_positive (perform env op now d).
Proof.
  intros Hpos. destruct op as [input|id|id|]; cbn [perform].
  - rewrite run_createReservation.
    destruct (items d !! input_itemId input); [|done].
    cbn zeta. repeat case_decide; try done. simpl.
    intros k r; cbn [reservations with_reservations];
      intros [[<- <-]|[_ Hr]]%lookup_insert_Some; [simpl; lia|by apply (Hpos k)].
  - rewrite run_confirmReservation.
    destruct (reservations d !! id) as [row|] eqn:Hrow; [|done].
    destruct (ReservationRow.status row); try done. repeat case_decide; try done. simpl.
    intros k r; cbn [reservations with_reservations];
      intros [[<- <-]|[_ Hr]]%lookup_insert_Some; [|by apply (Hpos k)].
    simpl. by apply (Hpos id).
  - rewrite run_cancelReservation.
    destruct (reservations d !! id) as [row|] eqn:Hrow; [|done].
    destruct (ReservationRow.status row); try done. simpl.
    intros k r; cbn [reservations with_reservations];
      intros [[<- <-]|[_ Hr]]%lookup_insert_Some; [|by apply (Hpos k)].
    simpl. by apply (Hpos id).
  - rewrite run_expireReservations. simpl.
    intros k r. cbn [reservations with_reservations]. rewrite lookup_fmap.
    destruct (reservations d !! k) as [row|] eqn:Hrow; [|done]. simpl.
    intros [= <-]. case_decide; simpl; by apply (Hpos k).
Qed.

Lemma perform_never_oversold env op now d :
  quantities_positive d → never_oversold now d → never_oversold now (perform env op now d).
Proof.
  intros Hpos Hinv i item. rewrite perform_items. intros Hitem.
  specialize (Hinv i item Hitem). rewrite held_sum in *.
  destruct op as [input|id|id|]; cbn [perform].
  - rewrite run_createReservation.
    destruct (items d !! input_itemId input) as [item'|] eqn:Hitem'; [|done].
    cbn zeta. repeat case_decide; try done. simpl.
    rewrite wsum_insert by apply uuid_generate_v4_fresh.
    destruct (decide (input_itemId input = i)) as [Heq|Hne].
    + rewrite Heq in *. assert (item' = item) as -> by congruence.
      unfold available_quantity in *.
      pose proof (held_sum now d i) as Hsum.
      pose proof (held_le_quantity now i
                    (Postgres.inserted_row now i (input_customerId input)
                       (input_quantity input) PENDING (now + RESERVATION_EXPIRY_MS env))).
      simpl in *. lia.
    + rewrite held_other_item by done. lia.
  - rewrite run_confirmReservation.
    destruct (reservations d !! id) as [row|] eqn:Hrow; [|done].
    destruct (ReservationRow.status row) eqn:Hs; try done.
    repeat case_decide; try done. simpl.
    rewrite (wsum_update _ _ _ row) by done.
    rewrite held_set_confirmed by done. lia.
  - rewrite run_cancelReservation.
    destruct (reservations d !! id) as [row|] eqn:Hrow; [|done].
    destruct (ReservationRow.status row) eqn:Hs; try done. simpl.
    rewrite (wsum_update _ _ _ row) by done.
    pose proof (held_set_cancelled now now i row (Hpos id row Hrow)). lia.
  - rewrite run_expireReservations. simpl. rewrite wsum_fmap.
    etrans; [|exact Hinv]. apply wsum_mono. intros k r Hr. simpl.
    case_decide; [|done]. apply held_set_expired. by apply (Hpos k).
Qed.

Lemma reachable_invariants env now d :
  reachable env now d → quantities_positive d ∧ never_oversold now d.
Proof.
  induction 1 as [now d [Hres Hitems]|now later d _ [IHpos IHinv] Hle
                 |now d op _ [IHpos IHinv]].
  - split.
    + intros id row. by rewrite Hres, lookup_empty.
    + intros id item Hitem. rewrite held_sum, Hres, wsum_empty.
      specialize (Hitems id item Hitem). lia.
  - split; [done|]. by apply (never_oversold_later now).
  - split; [by apply perform_quantities_positive|by apply perform_never_oversold].
Qed.


(** ** The availability view *)

Lemma run_getItemWithAvailability now d id :
  run (ItemService.getItemWithAvailability id) now d =
  match items d !! id with
  | None =>
      (Rejected (AppError ITEM_NOT_FOUND ("Item with ID " +:+ pretty id +:+ " not found")
                   404 None), d)
  | Some row =>
      (Resolved
         {| ItemWithAvailability.item := ItemRepository.mapToItem (id, row);
            ItemWithAvailability.availableQuantity :=
              ItemRow.total_quantity row - reserved_quantity now d id
              - confirmed_quantity d id;
            ItemWithAvailability.reservedQuantity := reserved_quantity now d id;
            ItemWithAvailability.confirmedQuantity := confirmed_quantity d id |}, d)
  end.
Proof.
  unfold ItemService.getItemWithAvailability, ItemRepository.findByIdWithAvailability.
  rewrite !run_bind, run_item_findById.
  destruct (items d !! id) as [row|]; [|done].
  cbn [fmap option_fmap option_map].
  rewrite run_bind. unfold new_Date at 1, run at 1. fold (@run (option ItemWithAvailability.t)).
  rewrite run_bind, run_await. cbn [exec fst snd].
  rewrite run_bind, run_await. cbn [exec fst snd].
  by rewrite !reduce_quantity_sumZ.
Qed.

(** GetAvailability reads without locking and writes nothing: an unknown
    item gives ITEM_NOT_FOUND; otherwise the answer carries the item, the
    sum of its PENDING reservations that have not expired, the sum of its
    CONFIRMED ones, and [available = total − reserved − confirmed]. *)
Theorem getItemWithAvailability_spec now d id :
  run (ItemService.getItemWithAvailability id) now d =
  match items d !! id with
  | None =>
      (Rejected (AppError ITEM_NOT_FOUND ("Item with ID " +:+ pretty id +:+ " not found")
                   404 None), d)
  | Some row =>
      (Resolved
         {| ItemWithAvailability.item := ItemRepository.mapToItem (id, row);
            ItemWithAvailability.availableQuantity :=
              ItemRow.total_quantity row - reserved_quantity now d id
              - confirmed_quantity d id;
            ItemWithAvailability.reservedQuantity := reserved_quantity now d id;
            ItemWithAvailability.confirmedQuantity := confirmed_quantity d id |}, d)
  end.
Proof. apply run_getItemWithAvailability. Qed.


(** ** Lost races *)

Lemma single_select_eq_id {V} id (table : gmap uuid V) :
  Postgres.single (Postgres.select_eq_id id table)
  = match table !! id with Some row => Data (id, row) | None => Failure Postgres.PGRST116 end.
Proof. unfold Postgres.select_eq_id. by destruct (table !! id). Qed.

(** One step of a call among others: unfold the binds up to the next
    request and let the store answer it. *)
Ltac among_step :=
  unfold mret, Prog_ret;
  cbn [run_among bind exec tail Postgres.single
         ReservationRepository.mapToReservation Reservation.status
         Reservation.expiresAt fst snd].

(** The guarded update found no row to change: the repository returns
    null and the service reads the reservation again. *)
Ltac reread Hzero :=
  unfold Postgres.update_eq_id;
  match goal with
  | |- context [reservations ?d !! ?id] =>
      destruct (reservations d !! id) as [?row|] eqn:?Hrow;
      [rewrite decide_False by (by apply Hzero)|]
  end;
  among_step; rewrite decide_True by done;
  among_step; rewrite with_reservations_id, single_select_eq_id.

Lemma confirm_lost_race now d id f1 f2 f3 row :
  reservations (f1 d) !! id = Some row →
  ReservationRow.status row = PENDING →
  ¬ ReservationRow.expires_at row < now →
  (∀ row2, reservations (f2 (f1 d)) !! id = Some row2 →
           ¬ Postgres.pending_unexpired now row2) →
  run_among (ReservationService.confirmReservation id) [f1; f2; f3] now d =
  (match reservations (f3 (f2 (f1 d))) !! id with
   | Some current =>
       if decide (ReservationRow.status current = CONFIRMED)
       then Resolved (ReservationRepository.mapToReservation (id, current))
       else Rejected (AppError CONFIRMATION_FAILED
                        "Failed to confirm reservation (may have been expired or cancelled concurrently)"
                        409 None)
   | None =>
       Rejected (AppError CONFIRMATION_FAILED
                   "Failed to confirm reservation (may have been expired or cancelled concurrently)"
                   409 None)
   end, f3 (f2 (f1 d))).
Proof.
  intros Hrow Hs Hexp Hzero.
  unfold ReservationService.confirmReservation, ReservationRepository.findById,
    ReservationRepository.confirmReservation, await, new_Date, mbind, Prog_bind.
  among_step. rewrite single_select_eq_id, Hrow.
  among_step. rewrite Hs.
  rewrite (decide_False (P := PENDING = CONFIRMED)) by done.
  rewrite (decide_False (P := PENDING ≠ PENDING)) by (by intros ?).
  among_step. rewrite decide_False by done.
  among_step.
  reread Hzero;
    (destruct (reservations (f3 (f2 (f1 d))) !! id) as [current|]; [|done]);
    among_step; by destruct (decide (ReservationRow.status current = CONFIRMED)).
Qed.

Lemma cancel_lost_race now d id f1 f2 f3 row :
  reservations (f1 d) !! id = Some row →
  ReservationRow.status row = PENDING →
  (∀ row2, reservations (f2 (f1 d)) !! id = Some row2 → ¬ Postgres.pending row2) →
  run_among (ReservationService.cancelReservation id) [f1; f2; f3] now d =
  (match reservations (f3 (f2 (f1 d))) !! id with
   | Some current =>
       if decide (ReservationRow.status current = CANCELLED
                  ∨ ReservationRow.status current = EXPIRED)
       then Resolved (ReservationRepository.mapToReservation (id, current))
       else Rejected (AppError CANCELLATION_FAILED
                        "Failed to cancel reservation (may have been confirmed or expired concurrently)"
                        409 None)
   | None =>
       Rejected (AppError CANCELLATION_FAILED
                   "Failed to cancel reservation (may have been confirmed or expired concurrently)"
                   409 None)
   end, f3 (f2 (f1 d))).
Proof.
  intros Hrow Hs Hzero.
  unfold ReservationService.cancelReservation, ReservationRepository.findById,
    ReservationRepository.cancelReservation, await, new_Date, mbind, Prog_bind.
  among_step. rewrite single_select_eq_id, Hrow.
  among_step. rewrite Hs.
  rewrite (decide_False (P := PENDING = CANCELLED)) by done.
  rewrite (decide_False (P := PENDING = EXPIRED)) by done.
  rewrite (decide_False (P := PENDING = CONFIRMED)) by done.
  among_step.
  reread Hzero;
    (destruct (reservations (f3 (f2 (f1 d))) !! id) as [current|]; [|done]);
    among_step;
    by destruct (decide (ReservationRow.status current = CANCELLED
                         ∨ ReservationRow.status current = EXPIRED)).
Qed.

(** C5, as the code has it. When the guarded update of a Confirm or of a
    Cancel changes no row, because other clients changed the reservation
    between the first read and the update, the call reads the reservation
    again and answers from what it finds. Confirm resolves with the
    reservation re-read when that is CONFIRMED, and is otherwise rejected
    with CONFIRMATION_FAILED; Cancel resolves with the reservation re-read
    when that is CANCELLED or EXPIRED, and is otherwise rejected with
    CANCELLATION_FAILED. Both rejections carry status 409 and no details:
    they do not say which state was found. *)
Theorem lost_race_reread :
  (∀ now d id f1 f2 f3 row,
     reservations (f1 d) !! id = Some row →
     ReservationRow.status row = PENDING →
     ¬ ReservationRow.expires_at row < now →
     (∀ row2, reservations (f2 (f1 d)) !! id = Some row2 →
              ¬ Postgres.pending_unexpired now row2) →
     run_among (ReservationService.confirmReservation id) [f1; f2; f3] now d =
     (match reservations (f3 (f2 (f1 d))) !! id with
      | Some current =>
          if decide (ReservationRow.status current = CONFIRMED)
          then Resolved (ReservationRepository.mapToReservation (id, current))
          else Rejected (AppError CONFIRMATION_FAILED
                           "Failed to confirm reservation (may have been expired or cancelled concurrently)"
                           409 None)
      | None =>
          Rejected (AppError CONFIRMATION_FAILED
                      "Failed to confirm reservation (may have been expired or cancelled concurrently)"
                      409 None)
      end, f3 (f2 (f1 d))))
  ∧
  (∀ now d id f1 f2 f3 row,
     reservations (f1 d) !! id = Some row →
     ReservationRow.status row = PENDING →
     (∀ row2, reservations (f2 (f1 d)) !! id = Some row2 → ¬ Postgres.pending row2) →
     run_among (ReservationService.cancelReservation id) [f1; f2; f3] now d =
     (match reservations (f3 (f2 (f1 d))) !! id with
      | Some current =>
          if decide (ReservationRow.status current = CANCELLED
                     ∨ ReservationRow.status current = EXPIRED)
          then Resolved (ReservationRepository.mapToReservation (id, current))
          else Rejected (AppError CANCELLATION_FAILED
                           "Failed to cancel reservation (may have been confirmed or expired concurrently)"
                           409 None)
      | None =>
          Rejected (AppError CANCELLATION_FAILED
                      "Failed to cancel reservation (may have been confirmed or expired concurrently)"
                      409 None)
      end, f3 (f2 (f1 d)))).
Proof. split; [apply confirm_lost_race|apply cancel_lost_race]. Qed.

(** C5 as stated fails. Reservation 1 is PENDING and not expired. A Confirm
    reads it; before its guarded update is served another client's Cancel
    commits; the update changes no row and the re-read finds CANCELLED. The
    Confirm is rejected with CONFIRMATION_FAILED, which names no state,
    where the claim asks for INVALID_STATUS_TRANSITION naming CANCELLED. *)
Lemma confirm_lost_to_cancel_is_generic :
  let others := [id; perform ten_minutes (Cancel 1) 2000; id] in
  let result :=
    run_among (ReservationService.confirmReservation 1) others 2000 shop_one_pending in
  let observed :=
    ReservationRepository.mapToReservation <$> ((1%positive,.) <$> reservations (snd result) !! 1%positive) in
  fst result
  = Rejected (AppError CONFIRMATION_FAILED
                "Failed to confirm reservation (may have been expired or cancelled concurrently)"
                409 None)
  ∧ Reservation.status <$> observed = Some CANCELLED
  ∧ ¬ names_observed_state observed (fst result).
Proof. vm_compute. split; [reflexivity|]. split; [reflexivity|]. intros H; exact H. Qed.

(** ** Contention for the last units *)

Lemma createReservation_contending env input now i :
  input_itemId input = i →
  input_quantity input = 1 →
  0 < RESERVATION_EXPIRY_MS env →
  contending 6 now i (ReservationService.createReservation env input).
Proof.
  intros Hi Hq Hexp.
  unfold ReservationService.createReservation, ItemRepository.findById,
    ReservationRepository.createAtomic, ReservationRepository.findById,
    ReservationRepository.getActiveReservedQuantity,
    ReservationRepository.getConfirmedQuantity,
    await, new_Date, Date_now, mbind, Prog_bind, mret, Prog_ret.
  cbn [contending bind try_catch exec fst].
  intros d [item Hitem]. rewrite Hi, single_select_eq_id, Hitem.
  cbn [contending bind try_catch params_itemId params_customerId params_quantity
         params_expiresAt].
  split; [done|]. split; [done|]. split; [lia|]. split.
  - intros id row Hs.
    cbn [settles_within bind try_catch read_only exec fst]. split; [done|].
    intros d' Hrow. unfold holds_row in Hrow. rewrite single_select_eq_id, Hrow.
    cbn [settles_within bind try_catch]. unfold won_outcome. simpl.
    by rewrite Hs, bool_decide_eq_true.
  - cbn [settles_within bind try_catch read_only exec fst].
    split; [done|]. intros d1 _. split; [done|]. intros d2 _.
    cbn [settles_within bind]. done.
Qed.

Lemma read_only_exec {B} (q : Query B) now d :
  read_only q = true → (exec q now d).2 = d.
Proof. by destruct q. Qed.

Lemma settles_within_step {A} n now good Q (p : Prog A) d :
  settles_within n now good Q p → good d →
  (step_thread p now d).2 = d
  ∧ settles_within (pred n) now good Q (step_thread p now d).1.
Proof.
  destruct p as [a|e|k|B q k]; simpl; intros H Hgood.
  - split; [done|]. destruct n; exact H.
  - split; [done|]. destruct n; exact H.
  - split; [done|]. destruct n; [done|exact H].
  - destruct n as [|n]; [done|]. destruct H as [Hro Hk].
    pose proof (read_only_exec q now d Hro) as Hd.
    specialize (Hk d Hgood).
    destruct (exec q now d) as [b d']. simpl in *. by subst.
Qed.

Lemma settles_within_done {A} now good Q (p : Prog A) :
  settles_within 0 now good Q p → ∃ o, settled p = Some o ∧ Q o.
Proof. destruct p; simpl; eauto; done. Qed.

Lemma contending_done now i p : ¬ contending 0 now i p.
Proof. destruct p; simpl; tauto. Qed.

Lemma contending_step n now i p d item :
  contending n now i p →
  items d !! i = Some item →
  ((step_thread p now d).2 = d ∧ contending (pred n) now i (step_thread p now d).1)
  ∨ (available_quantity now d i (ItemRow.total_quantity item) < 1
     ∧ (step_thread p now d).2 = d
     ∧ settles_within (pred n) now (λ _, True) lost_outcome (step_thread p now d).1)
  ∨ (1 ≤ available_quantity now d i (ItemRow.total_quantity item)
     ∧ ∃ customer_id expires_at,
         now < expires_at
         ∧ (step_thread p now d).2
           = with_reservations d
               (<[Postgres.uuid_generate_v4 (reservations d) :=
                    Postgres.inserted_row now i customer_id 1 PENDING expires_at]>
                  (reservations d))
         ∧ settles_within (pred n) now
             (holds_row (Postgres.uuid_generate_v4 (reservations d))
                (Postgres.inserted_row now i customer_id 1 PENDING expires_at))
             won_outcome (step_thread p now d).1).
Proof.
  intros Hp Hitem.
  destruct p as [a|e|k|B q k]; try done.
  - destruct n as [|n]; [done|]. left. by simpl.
  - destruct n as [|n]; [done|]. simpl in Hp.
    destruct q as [j|j c quantity expires_at| | | | | |]; try done.
    + left. simpl. split; [done|]. apply Hp. by exists item.
    + destruct Hp as (-> & -> & Hexp & Hwon & Hlost).
      cbn [step_thread exec]. unfold Postgres.create_reservation_atomic.
      rewrite Hitem.
      fold (reserved_quantity now d i). fold (confirmed_quantity d i).
      fold (available_quantity now d i (ItemRow.total_quantity item)).
      cbn zeta.
      destruct (decide (available_quantity now d i (ItemRow.total_quantity item) < 1)).
      * right; left. by simpl.
      * right; right. split; [lia|]. exists c, expires_at. split; [done|].
        unfold Postgres.insert_reservation.
        cbn [Postgres.inserted_row ReservationRow.quantity ReservationRow.expires_at
               ReservationRow.created_at].
        rewrite (decide_False (P := 1 ≤ 0)) by lia.
        rewrite (decide_False (P := expires_at ≤ now)) by lia.
        rewrite decide_False by (by rewrite Hitem).
        cbn [fst snd pred]. split; [done|]. by apply Hwon.
Qed.

Lemma available_after_insert now d i total customer_id expires_at :
  now < expires_at →
  available_quantity now
    (with_reservations d
       (<[Postgres.uuid_generate_v4 (reservations d) :=
            Postgres.inserted_row now i customer_id 1 PENDING expires_at]>
          (reservations d))) i total
  = available_quantity now d i total - 1.
Proof.
  intros Hexp. unfold available_quantity, reserved_quantity, confirmed_quantity.
  cbn [reservations with_reservations].
  rewrite !coalesce_sum_quantity_wsum.
  rewrite !wsum_insert by apply uuid_generate_v4_fresh.
  rewrite decide_True by (by unfold Postgres.active_for).
  rewrite decide_False by (unfold Postgres.confirmed_for; simpl; by intros [_ ?]).
  simpl. lia.
Qed.

Lemma count_if_insert {A} (f : A → bool) (l : list A) j x y :
  l !! j = Some x →
  (count_if f (<[j := y]> l) + (if f x then 1 else 0)
   = count_if f l + (if f y then 1 else 0))%nat.
Proof.
  revert j. induction l as [|z l IH]; intros [|j] Hj; try done; simpl in *.
  - inversion Hj; subst. lia.
  - specialize (IH j Hj). lia.
Qed.

Lemma thread_ok_stable now i d d' info p :
  thread_ok now i d info p →
  (∀ id row, holds_row id row d → holds_row id row d') →
  thread_ok now i d' info p.
Proof.
  unfold thread_ok. destruct info as [[|id row|] n]; simpl; try done.
  intros (Hs & Hrow & Hp) Hkeep. auto.
Qed.

Lemma count_if_insert_same {A} (f : A → bool) (l : list A) j x y :
  l !! j = Some x → f x = f y → count_if f (<[j := y]> l) = count_if f l.
Proof.
  intros Hj Hf. pose proof (count_if_insert f l j x y Hj) as H.
  rewrite Hf in H. lia.
Qed.

Lemma pool_step_inv now i item N infos pool d j p st n :
  pool_inv now i item N infos pool d →
  pool !! j = Some p →
  infos !! j = Some (st, n) →
  ∃ st',
    pool_inv now i item N (<[j := (st', pred n)]> infos)
      (<[j := (step_thread p now d).1]> pool) (step_thread p now d).2.
Proof.
  intros (Hall & Hitem & Hav & Hnn & Hlost) Hp Hinfo.
  pose proof (Forall2_lookup_lr _ _ _ _ _ _ Hall Hinfo Hp) as Hok.
  unfold thread_ok in Hok. cbn [fst snd] in Hok.
  destruct st as [|id row|].
  - destruct (contending_step n now i p d item Hok Hitem)
      as [[Hd Hp']|[(Hlt & Hd & Hp')|(Hge & c & e & Hexp & Hd & Hp')]].
    + exists Contending. rewrite Hd. split; [by apply Forall2_insert|].
      rewrite !(count_if_insert_same _ _ _ _ _ Hinfo) by done. done.
    + exists Lost. rewrite Hd. split; [by apply Forall2_insert|].
      rewrite (count_if_insert_same is_won _ _ _ _ Hinfo) by done.
      repeat split; try done. intros _. lia.
    + exists (Won (Postgres.uuid_generate_v4 (reservations d))
                (Postgres.inserted_row now i c 1 PENDING e)).
      rewrite Hd. split.
      { apply Forall2_insert.
        - eapply Forall2_impl; [exact Hall|]. intros info q Hq.
          apply (thread_ok_stable now i d); [done|]. intros id row Hrow.
          unfold holds_row in *. cbn [reservations with_reservations].
          rewrite lookup_insert_ne; [done|]. intros <-.
          by rewrite uuid_generate_v4_fresh in Hrow.
        - unfold thread_ok. cbn [fst snd]. split; [done|]. split; [|done].
          unfold holds_row. cbn [reservations with_reservations].
          apply lookup_insert_eq. }
      split; [done|].
      rewrite available_after_insert by done.
      pose proof (count_if_insert is_won infos j _
                    (Won (Postgres.uuid_generate_v4 (reservations d))
                       (Postgres.inserted_row now i c 1 PENDING e), pred n) Hinfo) as Hw.
      cbn in Hw.
      rewrite (count_if_insert_same is_lost _ _ _ _ Hinfo) by done.
      repeat split; lia.
  - destruct Hok as (Hs & Hrow & Hp').
    destruct (settles_within_step n now _ _ p d Hp' Hrow) as [Hd Hp''].
    exists (Won id row). rewrite Hd. split; [by apply Forall2_insert|].
    rewrite !(count_if_insert_same _ _ _ _ _ Hinfo) by done. done.
  - destruct (settles_within_step n now _ _ p d Hok I) as [Hd Hp''].
    exists Lost. rewrite Hd. split; [by apply Forall2_insert|].
    rewrite !(count_if_insert_same _ _ _ _ _ Hinfo) by done. done.
Qed.

Lemma run_pool_inv now i item N schedule :
  ∀ infos pool d,
    pool_inv now i item N infos pool d →
    ∃ infos',
      pool_inv now i item N infos' (run_pool schedule pool now d).1
        (run_pool schedule pool now d).2
      ∧ length infos' = length infos
      ∧ ∀ k st n, infos !! k = Some (st, n) →
                  ∃ st', infos' !! k = Some (st', (n - turns k schedule)%nat).
Proof.
  induction schedule as [|j schedule IH]; intros infos pool d Hinv.
  - exists infos. split; [done|]. split; [done|]. intros k st n Hk. exists st.
    simpl. by rewrite Nat.sub_0_r.
  - cbn [run_pool turns].
    destruct (pool !! j) as [p|] eqn:Hp.
    + pose proof Hinv as (Hall & _).
      destruct (Forall2_lookup_r _ _ _ _ _ Hall Hp) as ([st n] & Hinfo & _).
      destruct (pool_step_inv now i item N infos pool d j p st n Hinv Hp Hinfo)
        as [st1 Hinv1].
      destruct (step_thread p now d) as [p' d'] eqn:Hstep. cbn [fst snd] in Hinv1.
      destruct (IH _ _ _ Hinv1) as (infos' & Hinv' & Hlen' & Hfuel).
      rewrite length_insert in Hlen'.
      exists infos'. split; [done|]. split; [done|]. intros k st0 n0 Hk.
      destruct (decide (j = k)) as [->|Hne].
      * rewrite Hinfo in Hk. inversion Hk; subst.
        destruct (Hfuel k st1 (pred n0)) as [st' Hst'].
        { apply list_lookup_insert_eq. by eapply lookup_lt_Some. }
        exists st'. rewrite Hst'. do 2 f_equal. lia.
      * destruct (Hfuel k st0 n0) as [st' Hst'].
        { by rewrite list_lookup_insert_ne. }
        exists st'. rewrite Hst'. do 2 f_equal.
    + destruct (IH _ _ _ Hinv) as (infos' & Hinv' & Hlen' & Hfuel).
      exists infos'. split; [done|]. split; [done|]. intros k st n Hk.
      destruct (Hfuel k st n Hk) as [st' Hst']. exists st'. rewrite Hst'.
      destruct (decide (j = k)) as [->|Hne]; [|done].
      destruct Hinv as (Hall & _).
      pose proof (Forall2_length _ _ _ Hall) as Hlen.
      apply lookup_lt_Some in Hk. apply lookup_ge_None in Hp. lia.
Qed.

Lemma settled_outcomes now i d infos pool :
  Forall2 (thread_ok now i d) infos pool →
  Forall (λ info : Stage * nat, info.2 = 0%nat) infos →
  length (omap settled pool) = length pool
  ∧ count_if created_pending (omap settled pool) = count_if is_won infos
  ∧ count_if insufficient_quantity (omap settled pool) = count_if is_lost infos
  ∧ (count_if is_won infos + count_if is_lost infos = length infos)%nat.
Proof.
  induction 1 as [|[st n] p infos pool Hok Hall IH]; intros Hfuel; [done|].
  apply Forall_cons in Hfuel as [Hn Hfuel]. simpl in Hn. subst n.
  destruct (IH Hfuel) as (Hlen & Hwon & Hlost & Htotal).
  unfold thread_ok in Hok. cbn [fst snd] in Hok.
  destruct st as [|id row|].
  - by apply contending_done in Hok.
  - destruct Hok as (_ & _ & Hp).
    apply settles_within_done in Hp as (o & Ho & HQ). unfold won_outcome in HQ.
    cbn [omap list_omap]. rewrite Ho. fold (omap settled pool).
    assert (Hother : insufficient_quantity o = false) by (by destruct o).
    cbn [count_if length]. rewrite HQ, Hother. simpl. lia.
  - apply settles_within_done in Hok as (o & Ho & HQ). unfold lost_outcome in HQ.
    cbn [omap list_omap]. rewrite Ho. fold (omap settled pool).
    assert (Hother : created_pending o = false).
    { destruct o as [r|[code ? ? ?|?]]; try done. }
    cbn [count_if length]. rewrite HQ, Hother. simpl. lia.
Qed.

Lemma pool_inv_initial env now d i item inputs :
  0 < RESERVATION_EXPIRY_MS env →
  items d !! i = Some item →
  0 ≤ available_quantity now d i (ItemRow.total_quantity item) →
  Forall (λ input, input_itemId input = i ∧ input_quantity input = 1) inputs →
  pool_inv now i item (available_quantity now d i (ItemRow.total_quantity item))
    ((λ _, (Contending, 6%nat)) <$> inputs)
    (ReservationService.createReservation env <$> inputs) d.
Proof.
  intros Hexp Hitem Hnn Hinputs.
  assert (Hcount : ∀ f, f (Contending, 6%nat) = false →
            count_if f ((λ _ : CreateReservationInput, (Contending, 6%nat)) <$> inputs)
            = 0%nat).
  { intros f Hf. induction inputs as [|x l IH']; [done|].
    rewrite fmap_cons. cbn [count_if]. rewrite Hf, IH'; [done|].
    by apply Forall_cons in Hinputs as [_ ?]. }
  split.
  { apply Forall2_fmap, Forall_Forall2_diag.
    eapply Forall_impl; [exact Hinputs|]. intros input [Hi Hq].
    unfold thread_ok. cbn [fst snd]. by apply createReservation_contending. }
  split; [done|]. rewrite !Hcount by done. repeat split; try lia.
Qed.


(** ** What the store keeps *)

Lemma same_booking_refl row : same_booking row row.
Proof. by repeat split. Qed.

Lemma continues_refl d : continues d d.
Proof. split; [done|]. intros id row Hrow. exists row. by auto using same_booking_refl. Qed.

Lemma continues_trans d1 d2 d3 : continues d1 d2 → continues d2 d3 → continues d1 d3.
Proof.
  intros [Hi1 H1] [Hi2 H2]. split; [congruence|].
  intros id row Hrow.
  destruct (H1 id row Hrow) as (row' & Hrow' & (?&?&?&?&?) & Hterm).
  destruct (H2 id row' Hrow') as (row'' & Hrow'' & (?&?&?&?&?) & Hterm').
  exists row''. split; [done|]. split; [unfold same_booking; repeat split; congruence|].
  intros Hs. specialize (Hterm Hs). subst row'. by apply Hterm'.
Qed.

Lemma continues_update d id row row' :
  reservations d !! id = Some row →
  ReservationRow.status row = PENDING →
  same_booking row row' →
  continues d (with_reservations d (<[id := row']> (reservations d))).
Proof.
  intros Hrow Hs Hsame. split; [done|]. intros k r Hr.
  cbn [reservations with_reservations].
  destruct (decide (k = id)) as [->|Hne].
  - rewrite lookup_insert_eq. exists row'. assert (r = row) as -> by congruence.
    split; [done|]. split; [done|]. by rewrite Hs.
  - rewrite lookup_insert_ne by done. exists r. by auto using same_booking_refl.
Qed.

(** No request of the repositories deletes a reservation, changes an item,
    changes the booking of a reservation, or touches a reservation that has
    left PENDING. *)
Lemma exec_continues {B} (q : Query B) now d : continues d (exec q now d).2.
Proof.
  destruct q; cbn [exec snd]; try apply continues_refl.
  - unfold Postgres.create_reservation_atomic.
    destruct (items d !! p_item_id); [|apply continues_refl].
    cbn zeta. case_decide; [apply continues_refl|].
    unfold Postgres.insert_reservation.
    repeat case_decide; try apply continues_refl. cbn [snd].
    split; [done|]. intros k r Hr. exists r. cbn [reservations with_reservations].
    rewrite lookup_insert_ne; [by auto using same_booking_refl|].
    intros <-. by rewrite uuid_generate_v4_fresh in Hr.
  - unfold Postgres.update_eq_id.
    destruct (reservations d !! id) as [row|] eqn:Hrow;
      [|rewrite with_reservations_id; apply continues_refl].
    case_decide as Hg; [|rewrite with_reservations_id; apply continues_refl].
    cbn [snd]. destruct Hg as [Hs _]. by apply (continues_update d id row).
  - unfold Postgres.update_eq_id.
    destruct (reservations d !! id) as [row|] eqn:Hrow;
      [|rewrite with_reservations_id; apply continues_refl].
    case_decide as Hg; [|rewrite with_reservations_id; apply continues_refl].
    cbn [snd]. by apply (continues_update d id row).
  - unfold Postgres.update_where. cbn [snd]. split; [done|].
    intros k r Hr. cbn [reservations with_reservations]. rewrite lookup_fmap, Hr.
    cbn [fmap option_fmap option_map]. case_decide as Hg.
    + eexists. split; [done|]. split; [done|]. destruct Hg as [Hs _]. by rewrite Hs.
    + exists r. by auto using same_booking_refl.
Qed.

Lemma step_thread_continues {A} (p : Prog A) now d : continues d (step_thread p now d).2.
Proof.
  destruct p as [a|e|k|B q k]; cbn [step_thread snd]; try apply continues_refl.
  pose proof (exec_continues q now d). by destruct (exec q now d).
Qed.

(** Whatever calls are in flight together and in whatever order their
    requests are served, the tables afterwards continue the tables before:
    the items are unchanged, no reservation has been deleted, none has
    changed its item, customer, quantity, expiry or creation time, and one
    that was CONFIRMED, CANCELLED or EXPIRED is exactly as it was. *)
Theorem run_pool_continues {A} schedule (pool : list (Prog A)) now d :
  continues d (run_pool schedule pool now d).2.
Proof.
  revert pool d. induction schedule as [|i schedule IH]; intros pool d;
    cbn [run_pool]; [apply continues_refl|].
  destruct (pool !! i) as [p|]; [|apply IH].
  pose proof (step_thread_continues p now d) as Hstep.
  destruct (step_thread p now d) as [p' d']. cbn [snd] in Hstep.
  eapply continues_trans; [exact Hstep|apply IH].
Qed.

Lemma exec_consistent {B} (q : Query B) now d :
  store_consistent d → store_consistent (exec q now d).2.
Proof.
  intros Hc. destruct q; cbn [exec snd]; try done.
  - unfold Postgres.create_reservation_atomic.
    destruct (items d !! p_item_id) eqn:Hitem; [|done].
    cbn zeta. case_decide; [done|].
    unfold Postgres.insert_reservation.
    cbn [Postgres.inserted_row ReservationRow.quantity ReservationRow.expires_at
           ReservationRow.created_at].
    repeat case_decide; try done. cbn [snd].
    intros k r. cbn [reservations with_reservations items].
    intros [[<- <-]|[_ Hr]]%lookup_insert_Some; [|by apply (Hc k)].
    cbn. rewrite Hitem. repeat split; [by eexists|lia|lia].
  - unfold Postgres.update_eq_id.
    destruct (reservations d !! id) as [row|] eqn:Hrow; [|by rewrite with_reservations_id].
    case_decide as Hg; [|by rewrite with_reservations_id].
    cbn [snd]. intros k r. cbn [reservations with_reservations items].
    intros [[<- <-]|[_ Hr]]%lookup_insert_Some; [|by apply (Hc k)].
    destruct (Hc id row Hrow) as (? & ? & ? & Hcoh). destruct Hg as [Hs _].
    unfold coherent in *. rewrite Hs in Hcoh. destruct Hcoh as (? & ? & ?).
    cbn. repeat split; eauto.
  - unfold Postgres.update_eq_id.
    destruct (reservations d !! id) as [row|] eqn:Hrow; [|by rewrite with_reservations_id].
    case_decide as Hg; [|by rewrite with_reservations_id].
    cbn [snd]. intros k r. cbn [reservations with_reservations items].
    intros [[<- <-]|[_ Hr]]%lookup_insert_Some; [|by apply (Hc k)].
    destruct (Hc id row Hrow) as (? & ? & ? & Hcoh). unfold Postgres.pending in Hg.
    unfold coherent in *. rewrite Hg in Hcoh. destruct Hcoh as (? & ? & ?).
    cbn. repeat split; eauto.
  - unfold Postgres.update_where. cbn [snd].
    intros k r. cbn [reservations with_reservations items]. rewrite lookup_fmap.
    destruct (reservations d !! k) as [row|] eqn:Hrow; [|done].
    cbn [fmap option_fmap option_map]. intros [= <-].
    destruct (Hc k row Hrow) as (? & ? & ? & Hcoh).
    case_decide as Hg; [|done]. destruct Hg as [Hs _].
    unfold coherent in *. rewrite Hs in Hcoh. destruct Hcoh as (? & ? & ?).
    cbn. repeat split; eauto.
Qed.

Lemma run_consistent {A} (p : Prog A) now d :
  store_consistent d → store_consistent (run p now d).2.
Proof.
  revert d. induction p as [a|e|k IH|B q k IH]; intros d Hc; unfold run; fold (@run A);
    try done.
  - by apply IH.
  - pose proof (exec_consistent q now d Hc). destruct (exec q now d) as [b d']. by apply IH.
Qed.

Lemma perform_consistent env op now d :
  store_consistent d → store_consistent (perform env op now d).
Proof. destruct op; cbn [perform]; apply run_consistent. Qed.

(** Whatever calls are in flight together and in whatever order their
    requests are served, tables that satisfy the constraints of the schema
    and hold coherent rows still do so afterwards: every reservation
    references an item that exists, has a positive quantity and expires
    after its creation; it is PENDING with no transition timestamp, or
    carries [confirmed_at], [cancelled_at] or [expired_at] according to its
    status and neither of the other two. In particular no reservation is
    ever both confirmed and cancelled. *)
Theorem run_pool_consistent {A} schedule (pool : list (Prog A)) now d :
  store_consistent d → store_consistent (run_pool schedule pool now d).2.
Proof.
  revert pool d. induction schedule as [|i schedule IH]; intros pool d Hc;
    cbn [run_pool]; [done|].
  destruct (pool !! i) as [p|]; [|by apply IH].
  assert (Hstep : store_consistent (step_thread p now d).2).
  { destruct p as [a|e|k|B q k]; cbn [step_thread snd]; try done.
    pose proof (exec_consistent q now d Hc). by destruct (exec q now d). }
  destruct (step_thread p now d) as [p' d']. by apply IH.
Qed.

(** ** Timestamps of the transitions *)

Lemma timely_later now later r : now ≤ later → timely now r → timely later r.
Proof.
  intros Hle [Hc Hs]. split; [lia|].
  destruct (ReservationRow.status r); [done|..];
    destruct Hs as (t & ? & ?); exists t; repeat split; try tauto; lia.
Qed.

Lemma perform_rows_timely env op now d :
  rows_timely env now d → rows_timely env now (perform env op now d).
Proof.
  intros Hok. destruct op as [input|id|id|]; cbn [perform].
  - rewrite run_createReservation.
    destruct (items d !! input_itemId input); [|done].
    cbn zeta. repeat case_decide; try done. cbn [snd].
    intros k r; cbn [reservations with_reservations];
      intros [[<- <-]|[_ Hr]]%lookup_insert_Some; [|by apply (Hok k)].
    unfold timely. cbn. split; [lia|done].
  - rewrite run_confirmReservation.
    destruct (reservations d !! id) as [row|] eqn:Hrow; [|done].
    destruct (ReservationRow.status row); try done. repeat case_decide; try done.
    cbn [snd]. intros k r; cbn [reservations with_reservations];
      intros [[<- <-]|[_ Hr]]%lookup_insert_Some; [|by apply (Hok k)].
    destruct (Hok id row Hrow) as [[Hc _] Hexp]. split; [|done].
    unfold timely. cbn. split; [done|]. exists now. repeat split; [done|lia|lia].
  - rewrite run_cancelReservation.
    destruct (reservations d !! id) as [row|] eqn:Hrow; [|done].
    destruct (ReservationRow.status row); try done.
    cbn [snd]. intros k r; cbn [reservations with_reservations];
      intros [[<- <-]|[_ Hr]]%lookup_insert_Some; [|by apply (Hok k)].
    destruct (Hok id row Hrow) as [[Hc _] Hexp]. split; [|done].
    unfold timely. cbn. split; [done|]. exists now. repeat split; [done|lia].
  - rewrite run_expireReservations. cbn [snd].
    intros k r. cbn [reservations with_reservations]. rewrite lookup_fmap.
    destruct (reservations d !! k) as [row|] eqn:Hrow; [|done].
    cbn [fmap option_fmap option_map]. intros [= <-].
    destruct (decide (Postgres.pending_due now row)) as [[Hs Hdue]|Hg]; [|by apply (Hok k)].
    destruct (Hok k row Hrow) as [[Hc _] Hexp]. split; [|done].
    unfold timely. cbn. split; [done|]. exists now. repeat split; [done|lia].
Qed.


(** ** The ledger of availability *)

Lemma wsum_ext w w' table :
  (∀ id row, table !! id = Some row → w row = w' row) → wsum w table = wsum w' table.
Proof.
  intros Heq. apply Z.le_antisymm; apply wsum_mono; intros id row Hrow;
    rewrite (Heq id row Hrow); lia.
Qed.

Lemma wsum_zero w table :
  (∀ id row, table !! id = Some row → w row = 0) → wsum w table = 0.
Proof.
  intros Hz. rewrite (wsum_ext w (λ _, 0)) by done.
  unfold wsum. induction (map_to_list table) as [|kv l IH]; [done|].
  rewrite fmap_cons, sumZ_cons. lia.
Qed.

Lemma available_held now d i total :
  available_quantity now d i total = total - wsum (held now i) (reservations d).
Proof. unfold available_quantity. pose proof (held_sum now d i). lia. Qed.

Lemma held_pending now i r :
  ReservationRow.status r = PENDING →
  held now i r = if decide (Postgres.active_for i now r) then ReservationRow.quantity r else 0.
Proof.
  intros Hs. unfold held. rewrite (decide_False (P := Postgres.confirmed_for i r)); [lia|].
  intros [_ ?]. congruence.
Qed.

Lemma held_cancelled now t i r : held now i (Postgres.set_cancelled t r) = 0.
Proof.
  unfold held, Postgres.confirmed_for, Postgres.active_for. cbn.
  rewrite !decide_False; [done|by intros (_ & ? & _)|by intros (_ & ?)].
Qed.

Lemma run_expire_twice now d :
  let swept := snd (run MaintenanceService.expireReservations now d) in
  run MaintenanceService.expireReservations now swept
  = (Resolved {| expiredCount := 0; expiredReservationIds := [] |}, swept).
Proof.
  intros swept. subst swept. rewrite !run_expireReservations.
  cbn [snd reservations with_reservations].
  rewrite select_where_nil.
  2:{ intros id row. rewrite lookup_fmap.
      destruct (reservations d !! id) as [r|]; [|done]. cbn.
      intros [= <-]. destruct (decide (Postgres.pending_due now r)) as [Hg|Hg]; [|done].
      intros [Hs _]. cbn in Hs. done. }
  cbn. f_equal. unfold with_reservations. cbn [items reservations]. f_equal.
  apply map_eq. intros id. rewrite !lookup_fmap.
  destruct (reservations d !! id) as [r|]; [|done]. cbn. f_equal.
  destruct (decide (Postgres.pending_due now r)) as [Hg|Hg].
  - rewrite decide_False; [done|]. intros [Hs _]. cbn in Hs. done.
  - by rewrite decide_False.
Qed.

(** ExpireDue only writes down what is already true. A sweep at [now]
    changes, for no item and at no time from [now] on, the quantity held by
    PENDING reservations that have not expired, nor the confirmed quantity,
    hence not the availability; and a second sweep at the same instant finds
    nothing to expire and leaves the tables alone. *)
Theorem expireReservations_invisible now later d i :
  now ≤ later →
  let swept := snd (run MaintenanceService.expireReservations now d) in
  reserved_quantity later swept i = reserved_quantity later d i
  ∧ confirmed_quantity swept i = confirmed_quantity d i
  ∧ run MaintenanceService.expireReservations now swept
    = (Resolved {| expiredCount := 0; expiredReservationIds := [] |}, swept).
Proof.
  intros Hle swept. split; [|split; [|apply run_expire_twice]]; subst swept;
    rewrite run_expireReservations;
    unfold reserved_quantity, confirmed_quantity; cbn [snd reservations with_reservations];
    rewrite !coalesce_sum_quantity_wsum, wsum_fmap; apply wsum_ext; intros id row _;
    cbn; destruct (decide (Postgres.pending_due now row)) as [[Hs Hdue]|Hg]; try done.
  - rewrite !decide_False; [done| |].
    + unfold Postgres.active_for. lia.
    + unfold Postgres.active_for. cbn. by intros (_ & ? & _).
  - rewrite !decide_False; [done| |].
    + unfold Postgres.confirmed_for. intros [_ ?]. congruence.
    + unfold Postgres.confirmed_for. cbn. by intros [_ ?].
Qed.

(** Confirm moves a quantity from held to confirmed and so leaves the
    availability of every item, at the time of the call, as it was; so does
    a Confirm that is rejected. *)
Theorem confirmReservation_keeps_availability now d id i total :
  available_quantity now (snd (run (ReservationService.confirmReservation id) now d)) i total
  = available_quantity now d i total.
Proof.
  rewrite run_confirmReservation.
  destruct (reservations d !! id) as [row|] eqn:Hrow; [|done].
  destruct (ReservationRow.status row) eqn:Hs; try done.
  repeat case_decide; try done. cbn [snd].
  rewrite !available_held. cbn [reservations with_reservations].
  rewrite (wsum_update _ _ _ row) by done.
  rewrite held_set_confirmed by done. lia.
Qed.

(** Cancel gives back exactly what the reservation was holding: after the
    call the availability of an item is what it was plus the quantity of
    the addressed reservation if that was PENDING, unexpired and for this
    item, and plus nothing otherwise. *)
Theorem cancelReservation_releases now d id i total :
  available_quantity now (snd (run (ReservationService.cancelReservation id) now d)) i total
  = available_quantity now d i total
    + match reservations d !! id with
      | Some row =>
          if decide (Postgres.active_for i now row) then ReservationRow.quantity row else 0
      | None => 0
      end.
Proof.
  rewrite run_cancelReservation.
  destruct (reservations d !! id) as [row|] eqn:Hrow; [|cbn [snd]; lia].
  destruct (ReservationRow.status row) eqn:Hs; cbn [snd];
    try (rewrite decide_False; [lia|intros (_ & ? & _); congruence]).
  rewrite !available_held. cbn [reservations with_reservations].
  rewrite (wsum_update _ _ _ row) by done.
  rewrite held_cancelled, held_pending by done. lia.
Qed.

(** CreateReservation takes exactly what it returns: after the call the
    availability of an item is what it was minus the quantity of the
    reservation returned if that is for this item, and unchanged if the
    call was rejected. *)
Theorem createReservation_takes env input now d i total :
  available_quantity now
    (snd (run (ReservationService.createReservation env input) now d)) i total
  = available_quantity now d i total
    - match fst (run (ReservationService.createReservation env input) now d) with
      | Resolved r =>
          if decide (Reservation.itemId r = i) then Reservation.quantity r else 0
      | Rejected _ => 0
      end.
Proof.
  rewrite run_createReservation.
  destruct (items d !! input_itemId input) as [item|]; [|cbn [fst snd]; lia].
  cbn zeta. repeat case_decide; cbn [fst snd]; try lia.
  cbn [ReservationRepository.mapToReservation Reservation.itemId Reservation.quantity
         Postgres.inserted_row ReservationRow.item_id ReservationRow.quantity snd].
  rewrite !available_held. cbn [reservations with_reservations].
  rewrite wsum_insert by apply uuid_generate_v4_fresh.
  destruct (decide (input_itemId input = i)) as [Heq|Hne].
  - rewrite held_pending by done.
    rewrite decide_True; [cbn; lia|].
    unfold Postgres.active_for. cbn. repeat split; [done|lia].
  - rewrite held_other_item by done. lia.
Qed.

(** A reservation that is neither confirmed nor cancelled stops counting at
    its expiry, sweep or no sweep: the reservation that CreateReservation
    returns expires the configured duration after the call, and from that
    time on the availability of every item, in the tables the call left, is
    what it would be had the call not been made. *)
Theorem expiry_frees_stock env input now later d r d1 i total :
  run (ReservationService.createReservation env input) now d = (Resolved r, d1) →
  Reservation.expiresAt r ≤ later →
  Reservation.expiresAt r = now + RESERVATION_EXPIRY_MS env
  ∧ now < Reservation.expiresAt r
  ∧ available_quantity later d1 i total = available_quantity later d i total.
Proof.
  rewrite run_createReservation.
  destruct (items d !! input_itemId input) as [item|]; [|done].
  cbn zeta. repeat case_decide; try done. intros [= <- <-].
  cbn [ReservationRepository.mapToReservation Reservation.expiresAt snd
         Postgres.inserted_row ReservationRow.expires_at].
  intros Hlater. split; [done|]. split; [lia|].
  rewrite !available_held. cbn [reservations with_reservations].
  rewrite wsum_insert by apply uuid_generate_v4_fresh.
  rewrite held_pending by done.
  rewrite decide_False; [lia|]. unfold Postgres.active_for. cbn. lia.
Qed.

(** ** Calls one after another *)

Lemma run_getReservation now d id :
  run (ReservationService.getReservation id) now d =
  match reservations d !! id with
  | Some row => (Resolved (ReservationRepository.mapToReservation (id, row)), d)
  | None =>
      (Rejected (AppError RESERVATION_NOT_FOUND
                   ("Reservation with ID " +:+ pretty id +:+ " not found") 404 None), d)
  end.
Proof.
  unfold ReservationService.getReservation. rewrite run_bind, run_findById.
  by destruct (reservations d !! id).
Qed.

(** GetReservation reads back what the lifecycle calls return: the
    reservation that a CreateReservation, a Confirm or a Cancel resolved
    with is the one that GetReservation, called at any time on the tables
    that call left, resolves with, and it writes nothing; for an id that no
    reservation has it is rejected with RESERVATION_NOT_FOUND (404). *)
Theorem getReservation_reads_back now later d :
  (∀ env input r d1,
     run (ReservationService.createReservation env input) now d = (Resolved r, d1) →
     run (ReservationService.getReservation (Reservation.id r)) later d1 = (Resolved r, d1))
  ∧ (∀ id r d1,
       run (ReservationService.confirmReservation id) now d = (Resolved r, d1) →
       run (ReservationService.getReservation id) later d1 = (Resolved r, d1))
  ∧ (∀ id r d1,
       run (ReservationService.cancelReservation id) now d = (Resolved r, d1) →
       run (ReservationService.getReservation id) later d1 = (Resolved r, d1))
  ∧ (∀ id,
       reservations d !! id = None →
       run (ReservationService.getReservation id) later d
       = (Rejected (AppError RESERVATION_NOT_FOUND
                      ("Reservation with ID " +:+ pretty id +:+ " not found") 404 None), d)).
Proof.
  repeat split.
  - intros env input r d1. rewrite run_createReservation.
    destruct (items d !! input_itemId input); [|done].
    cbn zeta. repeat case_decide; try done. intros [= <- <-].
    rewrite run_getReservation. cbn. by rewrite lookup_insert_eq.
  - intros id r d1. rewrite run_confirmReservation.
    destruct (reservations d !! id) as [row|] eqn:Hrow; [|done].
    destruct (ReservationRow.status row); try done; repeat case_decide; try done;
      intros [= <- <-]; rewrite run_getReservation; cbn;
      by rewrite ?lookup_insert_eq, ?Hrow.
  - intros id r d1. rewrite run_cancelReservation.
    destruct (reservations d !! id) as [row|] eqn:Hrow; [|done].
    destruct (ReservationRow.status row); try done;
      intros [= <- <-]; rewrite run_getReservation; cbn;
      by rewrite ?lookup_insert_eq, ?Hrow.
  - intros id Hid. by rewrite run_getReservation, Hid.
Qed.

(** Cancel is idempotent: a Cancel that resolves returns a reservation that
    is CANCELLED or EXPIRED, and a second Cancel, whenever it is made,
    returns that very reservation (so the same [cancelledAt]) and leaves the
    tables as the first call left them. *)
Theorem cancelReservation_idempotent now1 now2 d id r d1 :
  run (ReservationService.cancelReservation id) now1 d = (Resolved r, d1) →
  (Reservation.status r = CANCELLED ∨ Reservation.status r = EXPIRED)
  ∧ run (ReservationService.cancelReservation id) now2 d1 = (Resolved r, d1).
Proof.
  rewrite run_cancelReservation.
  destruct (reservations d !! id) as [row|] eqn:Hrow; [|done].
  destruct (ReservationRow.status row) eqn:Hs; try done; intros [= <- <-];
    (split; [cbn; auto|]); rewrite run_cancelReservation; cbn;
    by rewrite ?lookup_insert_eq, ?Hrow, ?Hs.
Qed.

(** Confirm and Cancel exclude each other for good. After a Confirm that
    resolved, every later Cancel of the reservation is rejected with
    INVALID_STATUS_TRANSITION naming CONFIRMED; after a Cancel that resolved,
    every later Confirm is rejected with INVALID_STATUS_TRANSITION naming
    the status of the reservation the Cancel returned. Neither rejected call
    writes anything. *)
Theorem confirm_and_cancel_exclude now1 now2 d id r d1 :
  (run (ReservationService.confirmReservation id) now1 d = (Resolved r, d1) →
   run (ReservationService.cancelReservation id) now2 d1
   = (Rejected (AppError INVALID_STATUS_TRANSITION "Cannot cancel confirmed reservation" 409
                  (Some [("currentStatus", JsStatus CONFIRMED)])), d1))
  ∧ (run (ReservationService.cancelReservation id) now1 d = (Resolved r, d1) →
     run (ReservationService.confirmReservation id) now2 d1
     = (Rejected (AppError INVALID_STATUS_TRANSITION
                    ("Cannot confirm " +:+ status_name (Reservation.status r)
                     +:+ " reservation") 409
                    (Some [("currentStatus", JsStatus (Reservation.status r))])), d1)).
Proof.
  split.
  - rewrite run_confirmReservation.
    destruct (reservations d !! id) as [row|] eqn:Hrow; [|done].
    destruct (ReservationRow.status row) eqn:Hs; try done; repeat case_decide; try done;
      intros [= <- <-]; rewrite run_cancelReservation; cbn;
      by rewrite ?lookup_insert_eq, ?Hrow, ?Hs.
  - rewrite run_cancelReservation.
    destruct (reservations d !! id) as [row|] eqn:Hrow; [|done].
    destruct (ReservationRow.status row) eqn:Hs; try done;
      intros [= <- <-]; rewrite run_confirmReservation; cbn;
      by rewrite ?lookup_insert_eq, ?Hrow, ?Hs.
Qed.


Lemma prefix_app s t : String.prefix s (s +:+ t) = true.
Proof.
  induction s as [|a s IH]; [by destruct t|].
  change (String a s +:+ t) with (String a (s +:+ t)). cbn [String.prefix].
  destruct (Ascii.ascii_dec a a) as [_|Hne]; [exact IH|by destruct Hne].
Qed.

Lemma includes_prefix s t : includes (s +:+ t) s = true.
Proof.
  unfold includes.
  assert (H : String.index 0 s (s +:+ t) = Some 0%nat); [|by rewrite H].
  pose proof (prefix_app s t) as Hp.
  destruct (s +:+ t) as [|b u] eqn:Hst.
  - by destruct s.
  - cbn [String.index]. by rewrite Hp.
Qed.


(** ** Items *)

Lemma run_getItem now d id :
  run (ItemService.getItem id) now d =
  match items d !! id with
  | Some row => (Resolved (ItemRepository.mapToItem (id, row)), d)
  | None =>
      (Rejected (AppError ITEM_NOT_FOUND ("Item with ID " +:+ pretty id +:+ " not found")
                   404 None), d)
  end.
Proof.
  unfold ItemService.getItem. rewrite run_bind, run_item_findById.
  by destruct (items d !! id).
Qed.

(** The readers of an item agree. Whenever the availability view of an item
    is returned, [ItemService.getItem] returns the item of the view, the
    quantity getters of both repositories return the reserved and the
    confirmed quantity of the view, none of them writes, and the available
    quantity of the view is the total minus those two. *)
Theorem item_views_agree now d id view :
  fst (run (ItemService.getItemWithAvailability id) now d) = Resolved view →
  run (ItemService.getItem id) now d = (Resolved (ItemWithAvailability.item view), d)
  ∧ run (ItemRepository.getReservedQuantity id) now d
    = (Resolved (ItemWithAvailability.reservedQuantity view), d)
  ∧ run (ItemRepository.getConfirmedQuantity id) now d
    = (Resolved (ItemWithAvailability.confirmedQuantity view), d)
  ∧ run (ReservationRepository.getActiveReservedQuantity id) now d
    = (Resolved (ItemWithAvailability.reservedQuantity view), d)
  ∧ run (ReservationRepository.getConfirmedQuantity id) now d
    = (Resolved (ItemWithAvailability.confirmedQuantity view), d)
  ∧ ItemWithAvailability.availableQuantity view
    = Item.totalQuantity (ItemWithAvailability.item view)
      - ItemWithAvailability.reservedQuantity view
      - ItemWithAvailability.confirmedQuantity view.
Proof.
  rewrite run_getItemWithAvailability, run_getItem.
  destruct (items d !! id) as [row|]; [|done]. intros [= <-]. cbn.
  rewrite run_getActiveReservedQuantity, run_getConfirmedQuantity.
  repeat split.
  - unfold ItemRepository.getReservedQuantity, run; simpl.
    by rewrite reduce_quantity_sumZ.
  - unfold ItemRepository.getConfirmedQuantity, run; simpl.
    by rewrite reduce_quantity_sumZ.
Qed.

Lemma createItem_eq input now d :
  ItemService.createItem input now d =
  if decide (input_initialQuantity input ≤ 0) then
    (Rejected (Error "Failed to create item: new row for relation items violates check constraint items_total_quantity_check"), d)
  else
    let id := Postgres.uuid_generate_v4 (items d) in
    let row := {| ItemRow.name := input_name input;
                  ItemRow.total_quantity := input_initialQuantity input;
                  ItemRow.created_at := now; ItemRow.updated_at := now |} in
    (Resolved (ItemRepository.mapToItem (id, row)), with_items d (<[id := row]> (items d))).
Proof.
  unfold ItemService.createItem, ItemRepository.create, statement,
    Postgres.insert_item, mbind, Call_bind, mret, Call_ret, throw.
  cbn. by case_decide.
Qed.


Lemma unreferenced_held now d i :
  store_consistent d → items d !! i = None → wsum (held now i) (reservations d) = 0.
Proof.
  intros Hc Hi. apply wsum_zero. intros id row Hrow.
  apply held_other_item. intros Heq.
  destruct (Hc id row Hrow) as [[item Hitem] _]. congruence.
Qed.

Lemma coalesce_sum_quantity_nonneg (P : ReservationRow.t → Prop) `{∀ r, Decision (P r)}
    (table : gmap uuid ReservationRow.t) :
  (∀ id row, table !! id = Some row → 0 < ReservationRow.quantity row) →
  0 ≤ Postgres.coalesce_sum_quantity P table.
Proof.
  intros Hpos. rewrite coalesce_sum_quantity_wsum.
  pose proof (wsum_mono (λ _, 0)
                (λ r, if decide (P r) then ReservationRow.quantity r else 0) table) as Hle.
  rewrite (wsum_zero (λ _, 0)) in Hle by done. apply Hle.
  intros id row Hrow. specialize (Hpos id row Hrow). case_decide; lia.
Qed.

Lemma unreferenced_quantities now d i :
  store_consistent d → items d !! i = None →
  reserved_quantity now d i = 0 ∧ confirmed_quantity d i = 0.
Proof.
  intros Hc Hi.
  assert (Hpos : ∀ id row, reservations d !! id = Some row → 0 < ReservationRow.quantity row).
  { intros id row Hrow. by destruct (Hc id row Hrow) as (_ & ? & _). }
  pose proof (unreferenced_held now d i Hc Hi) as Hheld.
  pose proof (held_sum now d i) as Hsum.
  pose proof (coalesce_sum_quantity_nonneg (Postgres.active_for i now) _ Hpos).
  pose proof (coalesce_sum_quantity_nonneg (Postgres.confirmed_for i) _ Hpos).
  unfold reserved_quantity, confirmed_quantity in *. lia.
Qed.

(** A new item is all available. On tables that satisfy the constraints of
    the schema, the item that CreateItem returns has the quantity asked for,
    which is positive; read back at any time from the tables the call left,
    [getItem] returns it and the availability view shows the whole stock
    available, nothing reserved and nothing confirmed. *)
Theorem createItem_then_view input now later d item d1 :
  store_consistent d →
  ItemService.createItem input now d = (Resolved item, d1) →
  Item.totalQuantity item = input_initialQuantity input
  ∧ 0 < Item.totalQuantity item
  ∧ run (ItemService.getItem (Item.id item)) later d1 = (Resolved item, d1)
  ∧ run (ItemService.getItemWithAvailability (Item.id item)) later d1
    = (Resolved {| ItemWithAvailability.item := item;
                   ItemWithAvailability.availableQuantity := Item.totalQuantity item;
                   ItemWithAvailability.reservedQuantity := 0;
                   ItemWithAvailability.confirmedQuantity := 0 |}, d1).
Proof.
  intros Hc. rewrite createItem_eq. case_decide as Hq; [done|].
  cbn zeta. intros [= <- <-].
  cbn [ItemRepository.mapToItem Item.totalQuantity Item.id fst snd ItemRow.total_quantity].
  split; [done|]. split; [lia|].
  rewrite run_getItem, run_getItemWithAvailability. cbn [items with_items].
  rewrite lookup_insert_eq. split; [done|].
  destruct (unreferenced_quantities later d _ Hc (uuid_generate_v4_fresh (items d)))
    as [Hr Hcf].
  unfold reserved_quantity, confirmed_quantity in *. cbn [reservations with_items].
  rewrite Hr, Hcf. cbn. do 3 f_equal. lia.
Qed.

Lemma api_perform_invariants env op now d :
  stock_positive d ∧ store_consistent d ∧ never_oversold now d →
  stock_positive (api_perform env op now d)
  ∧ store_consistent (api_perform env op now d)
  ∧ never_oversold now (api_perform env op now d).
Proof.
  intros (Hstock & Hc & Hinv).
  assert (Hpos : quantities_positive d).
  { intros id row Hrow. by destruct (Hc id row Hrow) as (_ & ? & _). }
  destruct op as [input|op]; cbn [api_perform].
  - rewrite createItem_eq. case_decide as Hq; [done|]. cbn [snd].
    pose proof (uuid_generate_v4_fresh (items d)) as Hfresh.
    split; [|split].
    + intros i item. cbn [items with_items].
      intros [[<- <-]|[_ Hi]]%lookup_insert_Some; [cbn; lia|by apply (Hstock i)].
    + intros id row Hrow. cbn [reservations with_items] in Hrow.
      destruct (Hc id row Hrow) as ([item Hitem] & ? & ? & ?). split; [|done].
      cbn [items with_items]. exists item. rewrite lookup_insert_ne; [done|].
      intros Heq. rewrite <- Heq in Hitem. congruence.
    + intros i item. cbn [items with_items].
      intros [[<- <-]|[_ Hi]]%lookup_insert_Some.
      * change (confirmed_quantity d (Postgres.uuid_generate_v4 (items d))
                + reserved_quantity now d (Postgres.uuid_generate_v4 (items d))
                ≤ input_initialQuantity input).
        rewrite held_sum, unreferenced_held by done. lia.
      * by apply (Hinv i).
  - split; [|split].
    + intros i item. rewrite perform_items. by apply Hstock.
    + by apply perform_consistent.
    + by apply perform_never_oversold.
Qed.

Lemma api_reachable_invariants env now d :
  api_reachable env now d →
  stock_positive d ∧ store_consistent d ∧ never_oversold now d.
Proof.
  induction 1 as [now|now later d _ (Hs & Hc & Hinv) Hle|now d op _ IH].
  - by repeat split.
  - split; [done|]. split; [done|]. apply (never_oversold_later now); [|done..].
    intros id row Hrow. by destruct (Hc id row Hrow) as (_ & ? & _).
  - by apply api_perform_invariants.
Qed.


Lemma legacy_create_eq params now d :
  ReservationRepository.create params now d =
  match Postgres.insert_reservation now (params_itemId params) (params_customerId params)
          (params_quantity params) PENDING (params_expiresAt params) d with
  | inl e => (Rejected (Error ("Failed to create reservation: " +:+ pg_message e)), d)
  | inr (id, d') =>
      (Resolved (ReservationRepository.mapToReservation
                   (id, Postgres.inserted_row now (params_itemId params)
                          (params_customerId params) (params_quantity params) PENDING
                          (params_expiresAt params))), d')
  end.
Proof.
  unfold ReservationRepository.create, statement,
    Postgres.insert_reservation_returning, mbind, Call_bind, mret, Call_ret, throw.
  by destruct (Postgres.insert_reservation _ _ _ _ _ _ _) as [e|[id d']].
Qed.


(** ** The HTTP layer *)

Lemma dispatch_asyncHandler {T} (fn : Call (HttpResponse T)) now d :
  dispatch [asyncHandler fn] now d =
  match fn now d with
  | (Resolved response, d') => (response, d')
  | (Rejected e, d') => (errorHandler (thrown e), d')
  end.
Proof. unfold dispatch, asyncHandler. by destruct (fn now d) as [[r|e] d']. Qed.

Lemma call_bind_serve {A B} (p : Prog A) (f : A → Call B) now d :
  (serve p ≫= f) now d =
  match run p now d with
  | (Resolved a, d') => f a now d'
  | (Rejected e, d') => (Rejected e, d')
  end.
Proof. done. Qed.

(** The answer of a controller that awaits one service call and sends what
    it resolved with. *)
Lemma dispatch_respond {A T} (p : Prog A) (f : A → HttpResponse T) now d :
  dispatch [asyncHandler (a ← serve p; mret (f a))] now d =
  match run p now d with
  | (Resolved a, d') => (f a, d')
  | (Rejected e, d') => (errorHandler (thrown e), d')
  end.
Proof.
  rewrite dispatch_asyncHandler, call_bind_serve.
  by destruct (run p now d) as [[a|e] d'].
Qed.



(** POST /v1/reservations/:id/confirm, POST /v1/reservations/:id/cancel and
    GET /v1/reservations/:id, each served alone, answer 200, 404 or 409 and
    never 500; 404 exactly when no reservation has the id; any answer but
    200 carries an error body and leaves the tables as they were; a 200
    carries, without a message, the reservation as the tables hold it after
    the call. *)
Theorem reservation_endpoints now d id :
  reservation_answer id now d (ReservationController.confirmReservation id)
  ∧ reservation_answer id now d (ReservationController.cancelReservation id)
  ∧ reservation_answer id now d (ReservationController.getReservation id).
Proof.
  unfold reservation_answer, ReservationController.confirmReservation,
    ReservationController.cancelReservation, ReservationController.getReservation.
  rewrite !dispatch_respond.
  rewrite run_confirmReservation, run_cancelReservation, run_getReservation.
  destruct (reservations d !! id) as [row|] eqn:Hrow.
  2:{ cbn. repeat split; eauto; try done; try lia. }
  destruct (ReservationRow.status row) eqn:Hs; repeat case_decide;
    cbn [fst snd statusCode json errorHandler createSuccessResponse
           createErrorResponse reservations with_reservations];
    rewrite ?lookup_insert_eq, ?Hrow;
    repeat split; eauto; try done; try lia.
Qed.

(** POST /v1/maintenance/expire-reservations, served alone, always answers
    200; its data are the ids of the PENDING reservations that were due,
    with their count, and its message is "Successfully expired <count>
    reservations" for that very count. *)
Theorem maintenance_endpoint now d :
  let ids := (Postgres.select_where (Postgres.pending_due now) (reservations d)).*1 in
  fst (dispatch [MaintenanceController.expireReservations] now d)
  = {| statusCode := 200;
       json := success_body
         {| ApiSuccessResponse.data :=
              {| expiredCount := Z.of_nat (length ids); expiredReservationIds := ids |};
            ApiSuccessResponse.message :=
              Some ("Successfully expired " +:+ pretty (Z.of_nat (length ids))
                    +:+ " reservations") |} |}.
Proof.
  cbn zeta. unfold MaintenanceController.expireReservations.
  rewrite dispatch_respond, run_expireReservations.
  cbn [fst expiredCount]. unfold createSuccessResponse.
  by rewrite decide_False by done.
Qed.


(** What the validation middleware makes of a route. *)
Lemma dispatch_validate {Req T} (schema : Req → ParseResult) (req : Req)
    (controller : Handler T) now d :
  dispatch [validate schema req; controller] now d
  = match schema req with
    | parsed => dispatch [controller] now d
    | parse_ZodError errors =>
        ({| statusCode := 400;
            json := error_body
              (createErrorResponse "VALIDATION_ERROR" "Validation failed"
                 (Some (details_fields
                          ((λ err, (String.concat "." (path_element <$> ZodIssue.path err),
                                    ZodIssue.message err)) <$> errors)))) |}, d)
    | parse_error e => (errorHandler (thrown e), d)
    end.
Proof. unfold dispatch, validate. by destruct (schema req). Qed.

Lemma guarded_answer_parsed {Req T} (schema : Req → ParseResult) req
    (controller : Handler T) codes now d :
  (statusCode (dispatch [controller] now d).1 ∈ codes
   ∧ (statusCode (dispatch [controller] now d).1 ≠ 200 →
      statusCode (dispatch [controller] now d).1 ≠ 201 →
      (dispatch [controller] now d).2 = d
      ∧ ∃ e, json (dispatch [controller] now d).1 = error_body e)) →
  guarded_answer schema req controller codes now d.
Proof.
  intros Hc. unfold guarded_answer. rewrite dispatch_validate.
  by destruct (schema req).
Qed.

(** The answer at hand has one of the expected codes, and is an error that
    left the tables alone unless its code is 200 or 201. *)
Ltac answered :=
  cbn [fst snd statusCode json errorHandler createSuccessResponse createErrorResponse];
  split; [set_solver|]; intros ? ?; first [done | split; [done|by eexists]].

(** Every guarded route of the API, [validate(schema), controller], for any
    schema, served alone. A request the schema rejects with a [ZodError]
    never reaches the controller: the answer is 400 VALIDATION_ERROR
    "Validation failed" with, in order, each issue's path joined with dots
    and its message, and nothing is written; any other failure of the schema
    is answered by the error handler, nothing being written either. A request
    the schema accepts is answered 201, 404, 409 or 500 by
    POST /v1/reservations, 200, 404 or 409 by the confirm and cancel routes,
    200 or 404 by GET /v1/reservations/:id and GET /v1/items/:id, and 201 or
    500 by POST /v1/items; and whenever the answer is neither 200 nor 201 it
    is an error body and the tables are as they were. *)
Theorem guarded_routes {Req} (schema : Req → ParseResult) (req : Req) env now d :
  (∀ body,
     guarded_answer schema req (ReservationController.createReservation env body)
       [201; 404; 409; 500] now d)
  ∧ (∀ id,
       guarded_answer schema req (ReservationController.confirmReservation id)
         [200; 404; 409] now d
       ∧ guarded_answer schema req (ReservationController.cancelReservation id)
           [200; 404; 409] now d
       ∧ guarded_answer schema req (ReservationController.getReservation id)
           [200; 404] now d
       ∧ guarded_answer schema req (ItemController.getItem id) [200; 404] now d)
  ∧ (∀ body,
       guarded_answer schema req (ItemController.createItem body) [201; 500] now d).
Proof.
  split; [|split].
  - intros body. apply guarded_answer_parsed.
    unfold ReservationController.createReservation.
    rewrite dispatch_respond, run_createReservation.
    destruct (items d !! _) as [item|]; [|answered].
    cbn zeta. repeat case_decide; answered.
  - intros id. repeat split; apply guarded_answer_parsed.
    + unfold ReservationController.confirmReservation.
      rewrite dispatch_respond, run_confirmReservation.
      destruct (reservations d !! id) as [row|]; [|answered].
      destruct (ReservationRow.status row); repeat case_decide; answered.
    + unfold ReservationController.cancelReservation.
      rewrite dispatch_respond, run_cancelReservation.
      destruct (reservations d !! id) as [row|]; [|answered].
      destruct (ReservationRow.status row); answered.
    + unfold ReservationController.getReservation.
      rewrite dispatch_respond, run_getReservation.
      destruct (reservations d !! id) as [row|]; answered.
    + unfold ItemController.getItem.
      rewrite dispatch_respond, run_getItemWithAvailability.
      destruct (items d !! id) as [row|]; answered.
  - intros body. apply guarded_answer_parsed.
    unfold ItemController.createItem.
    rewrite dispatch_asyncHandler. unfold mbind, Call_bind. rewrite createItem_eq.
    case_decide; answered.
Qed.

(** ** Races between two calls *)

Lemma forallb_true_lookup {A} (f : A → bool) (l : list A) :
  forallb f l = true ↔ ∀ i x, l !! i = Some x → f x = true.
Proof.
  induction l as [|y l IH]; cbn [forallb]; [done|].
  rewrite andb_true_iff, IH. split.
  - intros [Hy Hl] [|i] x; cbn; [by intros [= <-]|apply Hl].
  - intros Hall. split; [by apply (Hall 0%nat)|]. intros i x. apply (Hall (S i)).
Qed.

Lemma advance_settled {A} (p : Prog A) now : is_settled p = true → advance p now = p.
Proof. by destruct p. Qed.

Lemma settles_in_unsettled {A} n now (p : Prog A) :
  settles_in n now p → is_settled p = false → (0 < n)%nat.
Proof. destruct p, n; cbn; try done; lia. Qed.

Lemma settles_in_step {A} n now (p : Prog A) d :
  settles_in n now p → settles_in (pred n) now (step_thread p now d).1.
Proof.
  destruct p as [a|e|k|B q k]; cbn [step_thread fst settles_in]; try done.
  - by destruct n.
  - destruct n as [|n]; [done|]. intros Hk. cbn [pred].
    specialize (Hk (exec q now d).1). by destruct (exec q now d).
Qed.

(** What [every_order] establishes for the threads at their next requests
    holds of every run of the pool in which each thread is given as many
    turns as it can need. *)
Lemma every_order_sound {A} (Q : list (Prog A) → Database → Prop) now schedule :
  ∀ fuel budget pool d,
    every_order fuel now Q ((λ p, advance p now) <$> pool) d →
    Forall2 (λ n p, settles_in n now p) budget pool →
    (∀ i n, budget !! i = Some n → (n ≤ turns i schedule)%nat) →
    forallb is_settled (run_pool schedule pool now d).1 = true
    ∧ Q (run_pool schedule pool now d).1 (run_pool schedule pool now d).2.
Proof.
  induction schedule as [|j schedule IH]; intros fuel budget pool d Hall Hbudget Hturns.
  - cbn [run_pool fst snd].
    assert (Hs : forallb is_settled pool = true).
    { apply forallb_true_lookup. intros i p Hi.
      destruct (is_settled p) eqn:Hp; [done|]. exfalso.
      destruct (Forall2_lookup_r _ _ _ _ _ Hbudget Hi) as (n & Hn & Hin).
      pose proof (settles_in_unsettled n now p Hin Hp).
      specialize (Hturns i n Hn). cbn in Hturns. lia. }
    split; [done|].
    assert (Hid : (λ p, advance p now) <$> pool = pool).
    { apply list_eq. intros i. rewrite list_lookup_fmap.
      destruct (pool !! i) as [p|] eqn:Hi; [|done]. cbn.
      rewrite advance_settled; [done|].
      by apply (proj1 (forallb_true_lookup _ _) Hs i). }
    rewrite Hid in Hall. destruct fuel; cbn [every_order] in Hall; by rewrite Hs in Hall.
  - cbn [run_pool].
    destruct (pool !! j) as [p|] eqn:Hj.
    + destruct (Forall2_lookup_r _ _ _ _ _ Hbudget Hj) as (n & Hn & Hin).
      pose proof (settles_in_step n now p d Hin) as Hin'.
      assert (Hturns' : ∀ i m, <[j := pred n]> budget !! i = Some m →
                               (m ≤ turns i schedule)%nat).
      { intros i m Hm. destruct (decide (i = j)) as [->|Hne].
        - rewrite list_lookup_insert_eq in Hm by (by eapply lookup_lt_Some).
          inversion Hm; subst m. specialize (Hturns j n Hn). cbn [turns] in Hturns.
          rewrite decide_True in Hturns by done. lia.
        - rewrite list_lookup_insert_ne in Hm by done.
          specialize (Hturns i m Hm). cbn [turns] in Hturns.
          rewrite decide_False in Hturns by done. lia. }
      assert (Hbudget' : Forall2 (λ n p, settles_in n now p) (<[j := pred n]> budget)
                           (<[j := (step_thread p now d).1]> pool)).
      { by apply Forall2_insert. }
      assert (Hall' : ∃ fuel',
                every_order fuel' now Q
                  ((λ p, advance p now) <$> <[j := (step_thread p now d).1]> pool)
                  (step_thread p now d).2).
      { rewrite list_fmap_insert.
        destruct p as [a|e|k|B q k].
        - exists fuel. cbn [step_thread fst snd]. rewrite list_insert_id; [done|].
          by rewrite list_lookup_fmap, Hj.
        - exists fuel. cbn [step_thread fst snd]. rewrite list_insert_id; [done|].
          by rewrite list_lookup_fmap, Hj.
        - exists fuel. cbn [step_thread fst snd]. rewrite list_insert_id; [done|].
          by rewrite list_lookup_fmap, Hj.
        - assert (Hj' : ((λ p, advance p now) <$> pool) !! j = Some (Await q k)).
          { by rewrite list_lookup_fmap, Hj. }
          destruct (forallb is_settled ((λ p, advance p now) <$> pool)) eqn:Hs.
          { pose proof (proj1 (forallb_true_lookup _ _) Hs j _ Hj'). done. }
          destruct fuel as [|fuel]; cbn [every_order] in Hall; rewrite Hs in Hall; [done|].
          exists fuel. by apply (Hall j (Await q k)). }
      destruct Hall' as [fuel' Hall'].
      destruct (step_thread p now d) as [p' d'].
      by apply (IH fuel' (<[j := pred n]> budget)).
    + apply (IH fuel budget); [done..|].
      intros i n Hn. specialize (Hturns i n Hn). cbn [turns] in Hturns.
      rewrite decide_False in Hturns; [done|]. intros ->.
      apply lookup_ge_None in Hj. apply lookup_lt_Some in Hn.
      apply Forall2_length in Hbudget. lia.
Qed.

Lemma every_order_settled {A} fuel now (Q : list (Prog A) → Database → Prop) pool d :
  forallb is_settled pool = true → Q pool d → every_order fuel now Q pool d.
Proof. intros Hs HQ. destruct fuel; cbn [every_order]; by rewrite Hs. Qed.

Lemma every_order_two {A} fuel now (Q : list (Prog A) → Database → Prop)
    p0 p1 d p0' d0 p1' d1 :
  is_settled p0 && is_settled p1 = false →
  (advance (step_thread p0 now d).1 now, (step_thread p0 now d).2) = (p0', d0) →
  (advance (step_thread p1 now d).1 now, (step_thread p1 now d).2) = (p1', d1) →
  (is_settled p0 = false → every_order fuel now Q [p0'; p1] d0) →
  (is_settled p1 = false → every_order fuel now Q [p0; p1'] d1) →
  every_order (S fuel) now Q [p0; p1] d.
Proof.
  intros Hs [= <- <-] [= <- <-] H0 H1. cbn [every_order forallb]. rewrite andb_true_r, Hs.
  intros [|[|i]] p Hi Hp; cbn in Hi; [| |done]; injection Hi as <-; auto.
Qed.

Lemma lookup_insert_row (table : gmap uuid ReservationRow.t) id row :
  <[id := row]> table !! id = Some row.
Proof. apply lookup_insert_eq. Qed.

(** Decide the guards that the facts at hand settle. *)
Ltac race_decide :=
  repeat match goal with
  | |- context [decide ?P] =>
      first
        [ rewrite (decide_True (P := P))
            by (unfold Postgres.pending, Postgres.pending_unexpired; cbn;
                first [done | lia | split; first [done | lia]
                      | left; done | right; done])
        | rewrite (decide_False (P := P))
            by (unfold Postgres.pending, Postgres.pending_unexpired; cbn;
                first [done | lia | intros [? ?]; first [done | lia]
                      | intros [?|?]; done | intros ?; done]) ]
  end.

(** Let the store answer the request of a thread and bring the thread to its
    next request; [Hrow] and [Hs] say what is stored under the id. *)
Ltac race_tidy Hrow Hs :=
  repeat first
    [ progress cbn [bind advance ReservationRepository.mapToReservation Reservation.status
                      Reservation.expiresAt fst snd reservations with_reservations
                      Postgres.single Postgres.set_confirmed Postgres.set_cancelled
                      ReservationRow.status ReservationRow.expires_at]
    | match goal with
      | |- context [Postgres.single (Postgres.select_eq_id ?i ?t)] =>
          rewrite (single_select_eq_id i t)
      | |- context [<[?i := ?r]> ?t !! ?i] => rewrite (lookup_insert_row t i r)
      | |- context [reservations _ !! _] => rewrite Hrow
      | |- context [ReservationRow.status ?r] => is_var r; rewrite Hs
      end
    | progress unfold Postgres.update_eq_id
    | progress race_decide ].

(** Both threads have settled: show what was to be shown of them. *)
Ltac race_end :=
  unfold confirm_or_cancel, refused_with;
  first
    [ split; reflexivity
    | left; eexists; split; [reflexivity|];
      split; [eexists _, _, _; split; [reflexivity|set_solver]|]; reflexivity
    | right; eexists; split; [reflexivity|];
      split; [eexists _, _, _; split; [reflexivity|set_solver]|]; reflexivity ].

(** Follow every order in which the requests of the two threads can be
    served. *)
Ltac race Hrow Hs :=
  lazymatch goal with
  | |- every_order _ _ _ [Ret _; Ret _] _ => apply every_order_settled; [reflexivity|race_end]
  | |- every_order _ _ _ [Ret _; Throw _] _ => apply every_order_settled; [reflexivity|race_end]
  | |- every_order _ _ _ [Throw _; Ret _] _ => apply every_order_settled; [reflexivity|race_end]
  | |- every_order _ _ _ [Throw _; Throw _] _ => apply every_order_settled; [reflexivity|race_end]
  | |- every_order _ _ _ [_; _] _ =>
      eapply every_order_two;
      [ reflexivity
      | cbn [step_thread exec fst snd]; race_tidy Hrow Hs; reflexivity
      | cbn [step_thread exec fst snd]; race_tidy Hrow Hs; reflexivity
      | let Hp := fresh "Hp" in
        intros Hp; first [discriminate Hp | clear Hp; race Hrow Hs]
      | let Hp := fresh "Hp" in
        intros Hp; first [discriminate Hp | clear Hp; race Hrow Hs] ]
  end.

Ltac settles :=
  repeat first
    [ progress cbn [settles_in bind]
    | intros [[? ?]|?]
    | case_decide
    | done ].

Lemma confirmReservation_settles_in now id :
  settles_in 6 now (ReservationService.confirmReservation id).
Proof.
  unfold ReservationService.confirmReservation,
    ReservationRepository.findById, ReservationRepository.confirmReservation,
    await, new_Date, mbind, Prog_bind, mret, Prog_ret.
  settles.
Qed.

Lemma cancelReservation_settles_in now id :
  settles_in 4 now (ReservationService.cancelReservation id).
Proof.
  unfold ReservationService.cancelReservation,
    ReservationRepository.findById, ReservationRepository.cancelReservation,
    await, new_Date, mbind, Prog_bind, mret, Prog_ret.
  settles.
Qed.

Lemma confirm_cancel_every now d id row :
  reservations d !! id = Some row →
  ReservationRow.status row = PENDING →
  now < ReservationRow.expires_at row →
  every_order 6 now (confirm_or_cancel now id row d)
    ((λ p, advance p now) <$>
       [ReservationService.confirmReservation id; ReservationService.cancelReservation id]) d.
Proof.
  intros Hrow Hs Hexp.
  unfold ReservationService.confirmReservation, ReservationService.cancelReservation,
    ReservationRepository.findById, ReservationRepository.confirmReservation,
    ReservationRepository.cancelReservation, await, new_Date, mbind, Prog_bind, mret, Prog_ret.
  cbn [fmap list_fmap bind advance].
  race Hrow Hs.
Qed.

(** A Confirm and a Cancel of the same PENDING, unexpired reservation, in
    flight together within one instant, their requests served one at a time
    in any order. Once the Confirm has had six turns and the Cancel four,
    both have settled and exactly one of them resolved: either the Confirm
    returned the reservation CONFIRMED, that is what is stored, and the
    Cancel was rejected with status 409, as INVALID_STATUS_TRANSITION or
    CANCELLATION_FAILED; or the Cancel returned it CANCELLED, that is what
    is stored, and the Confirm was rejected with status 409, as
    INVALID_STATUS_TRANSITION or CONFIRMATION_FAILED. No other row
    changed. *)
Theorem confirm_cancel_race now d id row schedule :
  reservations d !! id = Some row →
  ReservationRow.status row = PENDING →
  now < ReservationRow.expires_at row →
  (6 ≤ turns 0 schedule)%nat →
  (4 ≤ turns 1 schedule)%nat →
  confirm_or_cancel now id row d
    (run_pool schedule
       [ReservationService.confirmReservation id; ReservationService.cancelReservation id]
       now d).1
    (run_pool schedule
       [ReservationService.confirmReservation id; ReservationService.cancelReservation id]
       now d).2.
Proof.
  intros Hrow Hs Hexp H0 H1.
  destruct (every_order_sound _ now schedule 6 [6; 4]%nat _ d
              (confirm_cancel_every now d id row Hrow Hs Hexp)) as [_ HQ]; [..|exact HQ].
  - repeat first [apply Forall2_cons_2 | apply Forall2_nil_2
                  | apply confirmReservation_settles_in
                  | apply cancelReservation_settles_in].
  - intros [|[|i]] n; cbn; try done; intros [= <-]; done.
Qed.

Lemma confirm_confirm_every now d id row :
  reservations d !! id = Some row →
  ReservationRow.status row = PENDING →
  now < ReservationRow.expires_at row →
  every_order 6 now
    (λ pool d',
       pool = [Ret (ReservationRepository.mapToReservation
                      (id, Postgres.set_confirmed now row));
               Ret (ReservationRepository.mapToReservation
                      (id, Postgres.set_confirmed now row))]
       ∧ d' = with_reservations d (<[id := Postgres.set_confirmed now row]> (reservations d)))
    ((λ p, advance p now) <$>
       [ReservationService.confirmReservation id; ReservationService.confirmReservation id]) d.
Proof.
  intros Hrow Hs Hexp.
  unfold ReservationService.confirmReservation,
    ReservationRepository.findById, ReservationRepository.confirmReservation,
    await, new_Date, mbind, Prog_bind, mret, Prog_ret.
  cbn [fmap list_fmap bind advance].
  race Hrow Hs.
Qed.

Lemma cancel_cancel_every now d id row :
  reservations d !! id = Some row →
  ReservationRow.status row = PENDING →
  every_order 6 now
    (λ pool d',
       pool = [Ret (ReservationRepository.mapToReservation
                      (id, Postgres.set_cancelled now row));
               Ret (ReservationRepository.mapToReservation
                      (id, Postgres.set_cancelled now row))]
       ∧ d' = with_reservations d (<[id := Postgres.set_cancelled now row]> (reservations d)))
    ((λ p, advance p now) <$>
       [ReservationService.cancelReservation id; ReservationService.cancelReservation id]) d.
Proof.
  intros Hrow Hs.
  unfold ReservationService.cancelReservation,
    ReservationRepository.findById, ReservationRepository.cancelReservation,
    await, new_Date, mbind, Prog_bind, mret, Prog_ret.
  cbn [fmap list_fmap bind advance].
  race Hrow Hs.
Qed.


(** ** The theorems at work on the sample data *)






(** Reservation 1 expires at 601000; Confirm at 601000. *)
Lemma confirmReservation_at_expiry_instant_sample :
  run (ReservationService.confirmReservation 1) 601000 shop_one_pending
  = (Rejected (AppError CONFIRMATION_FAILED
                 "Failed to confirm reservation (may have been expired or cancelled concurrently)"
                 409 None), shop_one_pending).
Proof.
  exact (confirmReservation_at_expiry_instant 601000 shop_one_pending 1 pending_shirt
           eq_refl eq_refl eq_refl).
Defined.

(** A Confirm that loses reservation 1 to another client's Cancel. *)
Lemma lost_race_reread_sample :
  run_among (ReservationService.confirmReservation 1)
    [id; perform ten_minutes (Cancel 1) 2000; id] 2000 shop_one_pending
  = (Rejected (AppError CONFIRMATION_FAILED
                 "Failed to confirm reservation (may have been expired or cancelled concurrently)"
                 409 None),
     perform ten_minutes (Cancel 1) 2000 shop_one_pending).
Proof.
  refine (eq_trans (proj1 lost_race_reread 2000 shop_one_pending 1%positive id
                      (perform ten_minutes (Cancel 1) 2000) id pending_shirt
                      eq_refl eq_refl _ _) _).
  - vm_compute. discriminate.
  - intros row2. vm_compute. intros [= <-] [? _]. discriminate.
  - reflexivity.
Defined.

(** Reservation 1 confirmed at 2000 and again at 5000. *)
Lemma confirmReservation_idempotent_sample :
  ∃ r d1,
    run (ReservationService.confirmReservation 1) 2000 shop_one_pending = (Resolved r, d1)
    ∧ Reservation.status r = CONFIRMED
    ∧ Reservation.confirmedAt r = Some 2000
    ∧ run (ReservationService.confirmReservation 1) 5000 d1 = (Resolved r, d1).
Proof.
  eexists _, _. split; [vm_compute; reflexivity|].
  split; [reflexivity|]. split; [reflexivity|].
  apply (proj2 confirmReservation_idempotent 2000 5000 shop_one_pending 1%positive).
  vm_compute. reflexivity.
Defined.

(** Three shirts asked of a shop that has two. *)
Lemma createReservation_failure_leaves_tables_sample :
  snd (run (ReservationService.createReservation ten_minutes three_shirts) 1000 shop) = shop.
Proof.
  apply (createReservation_failure_leaves_tables ten_minutes three_shirts 1000 shop
           (AppError INSUFFICIENT_QUANTITY "Cannot reserve 3 units. Only 2 available." 409
              (Some [("requested", JsNumber 3); ("available", JsNumber 2)]))).
  vm_compute. reflexivity.
Defined.

(** Reservation 1 expired at 601000 and is cancelled, unswept, at 700000. *)
Lemma cancelReservation_ignores_expiry_sample :
  ReservationRow.expires_at pending_shirt ≤ 700000
  ∧ fst (run (ReservationService.cancelReservation 1) 700000 shop_one_pending)
    = Resolved (ReservationRepository.mapToReservation
                  (1%positive, Postgres.set_cancelled 700000 pending_shirt)).
Proof.
  split; [vm_compute; discriminate|].
  apply (cancelReservation_ignores_expiry 700000 shop_one_pending 1 pending_shirt);
    reflexivity.
Defined.


(** Reservation 1 expires at 601000; Confirm one millisecond later. *)
Lemma confirmReservation_expired_sample :
  run (ReservationService.confirmReservation 1) 601001 shop_one_pending
  = (Rejected (AppError RESERVATION_EXPIRED "Cannot confirm expired reservation" 409
                 (Some [("expiredAt", JsDate 601000)])), shop_one_pending).
Proof.
  exact (confirmReservation_expired 601001 shop_one_pending 1 pending_shirt
           eq_refl eq_refl eq_refl).
Defined.

(** Reservation 1 expires at 601000; Confirm at 601000 is rejected. *)
Lemma confirmReservation_due_not_confirmed_sample :
  ∃ e, run (ReservationService.confirmReservation 1) 601000 shop_one_pending
       = (Rejected e, shop_one_pending).
Proof.
  apply (confirmReservation_due_not_confirmed 601000 shop_one_pending 1 pending_shirt);
    [reflexivity|reflexivity|vm_compute; discriminate].
Defined.

(** ** The further properties at work on the sample data *)

Lemma shop_one_pending_eq :
  shop_one_pending
  = {| items := {[ 1%positive := shirt ]}; reservations := {[ 1%positive := pending_shirt ]} |}.
Proof. vm_compute. reflexivity. Qed.

Lemma shop_one_pending_consistent : store_consistent shop_one_pending.
Proof.
  rewrite shop_one_pending_eq. intros id row. cbn [reservations items].
  intros [_ <-]%lookup_singleton_Some.
  split; [by eexists|]. split; [done|]. split; [done|]. by repeat split.
Qed.

Lemma shop_after_sweep_reachable : reachable ten_minutes 700000 shop_after_sweep.
Proof.
  apply reachable_perform. apply (reachable_later _ 3000); [|lia].
  apply reachable_perform. apply (reachable_later _ 2000); [|lia].
  apply reachable_perform. apply (reachable_later _ 1000); [|lia].
  apply (reachable_perform ten_minutes 1000 shop (CreateReservation one_shirt)).
  apply reachable_initial. split; [reflexivity|].
  intros id item. unfold shop. cbn [items].
  intros [_ <-]%lookup_singleton_Some. reflexivity.
Qed.

Lemma shop_after_sweep_api_reachable : api_reachable ten_minutes 700000 shop_after_sweep.
Proof.
  apply (api_reachable_perform ten_minutes 700000 _ (Lifecycle ExpireDue)).
  apply (api_reachable_later _ 3000); [|lia].
  apply (api_reachable_perform ten_minutes 3000 _ (Lifecycle (CreateReservation one_shirt))).
  apply (api_reachable_later _ 2000); [|lia].
  apply (api_reachable_perform ten_minutes 2000 _ (Lifecycle (Confirm 1))).
  apply (api_reachable_later _ 1000); [|lia].
  apply (api_reachable_perform ten_minutes 1000 shop (Lifecycle (CreateReservation one_shirt))).
  apply (api_reachable_later _ 0); [|lia].
  apply (api_reachable_perform ten_minutes 0 empty_store (CreateItem white_shirts)).
  apply api_reachable_empty.
Qed.

(** A Confirm and a Cancel of reservation 1 in flight together at 2000. *)
Lemma run_pool_consistent_sample :
  store_consistent
    (run_pool in_turns
       [ReservationService.confirmReservation 1; ReservationService.cancelReservation 1]
       2000 shop_one_pending).2.
Proof.
  apply (run_pool_consistent in_turns _ 2000 shop_one_pending).
  apply shop_one_pending_consistent.
Defined.


(** The sweep of 700000 seen from 800000: reservation 2, due since 603000,
    was not counted before the sweep either. *)
Lemma expireReservations_invisible_sample :
  let swept := snd (run MaintenanceService.expireReservations 700000 shop_before_sweep) in
  reserved_quantity 800000 swept 1 = reserved_quantity 800000 shop_before_sweep 1
  ∧ confirmed_quantity swept 1 = confirmed_quantity shop_before_sweep 1
  ∧ run MaintenanceService.expireReservations 700000 swept
    = (Resolved {| expiredCount := 0; expiredReservationIds := [] |}, swept).
Proof. apply (expireReservations_invisible 700000 800000 shop_before_sweep 1). lia. Defined.

(** The shirt reserved at 1000 is available again at 601000, unswept. *)
Lemma expiry_frees_stock_sample :
  Reservation.expiresAt (ReservationRepository.mapToReservation (1%positive, pending_shirt))
  = 1000 + RESERVATION_EXPIRY_MS ten_minutes
  ∧ 1000
    < Reservation.expiresAt (ReservationRepository.mapToReservation (1%positive, pending_shirt))
  ∧ available_quantity 601000 shop_one_pending 1 2 = available_quantity 601000 shop 1 2.
Proof.
  apply (expiry_frees_stock ten_minutes one_shirt 1000 601000 shop
           (ReservationRepository.mapToReservation (1%positive, pending_shirt))
           shop_one_pending 1 2).
  - vm_compute. reflexivity.
  - vm_compute. discriminate.
Defined.

(** Reservation 1 read back at 5000 after it was created at 1000. *)
Lemma getReservation_reads_back_sample :
  run (ReservationService.getReservation 1) 5000 shop_one_pending
  = (Resolved (ReservationRepository.mapToReservation (1%positive, pending_shirt)),
     shop_one_pending).
Proof.
  exact (proj1 (getReservation_reads_back 1000 5000 shop) ten_minutes one_shirt
           (ReservationRepository.mapToReservation (1%positive, pending_shirt))
           shop_one_pending eq_refl).
Defined.

(** Reservation 1 cancelled at 2000 and again at 5000. *)
Lemma cancelReservation_idempotent_sample :
  ∃ r d1,
    run (ReservationService.cancelReservation 1) 2000 shop_one_pending = (Resolved r, d1)
    ∧ (Reservation.status r = CANCELLED ∨ Reservation.status r = EXPIRED)
    ∧ run (ReservationService.cancelReservation 1) 5000 d1 = (Resolved r, d1).
Proof.
  eexists _, _. split; [vm_compute; reflexivity|].
  apply (cancelReservation_idempotent 2000 5000 shop_one_pending 1%positive).
  vm_compute. reflexivity.
Defined.

(** Reservation 1 confirmed at 2000; a Cancel at 5000 is refused. *)
Lemma confirm_and_cancel_exclude_sample :
  run (ReservationService.cancelReservation 1) 5000
    (perform ten_minutes (Confirm 1) 2000 shop_one_pending)
  = (Rejected (AppError INVALID_STATUS_TRANSITION "Cannot cancel confirmed reservation" 409
                 (Some [("currentStatus", JsStatus CONFIRMED)])),
     perform ten_minutes (Confirm 1) 2000 shop_one_pending).
Proof.
  apply (proj1 (confirm_and_cancel_exclude 2000 5000 shop_one_pending 1%positive
                  (ReservationRepository.mapToReservation
                     (1%positive, Postgres.set_confirmed 2000 pending_shirt))
                  (perform ten_minutes (Confirm 1) 2000 shop_one_pending))).
  vm_compute. reflexivity.
Defined.



(** The shirt in [shop_one_pending] at 2000: one held, none confirmed, one
    available. *)
Lemma item_views_agree_sample :
  run (ItemService.getItem 1) 2000 shop_one_pending
  = (Resolved (ItemRepository.mapToItem (1%positive, shirt)), shop_one_pending)
  ∧ run (ItemRepository.getReservedQuantity 1) 2000 shop_one_pending
    = (Resolved 1, shop_one_pending)
  ∧ run (ItemRepository.getConfirmedQuantity 1) 2000 shop_one_pending
    = (Resolved 0, shop_one_pending)
  ∧ run (ReservationRepository.getActiveReservedQuantity 1) 2000 shop_one_pending
    = (Resolved 1, shop_one_pending)
  ∧ run (ReservationRepository.getConfirmedQuantity 1) 2000 shop_one_pending
    = (Resolved 0, shop_one_pending)
  ∧ 1 = 2 - 1 - 0.
Proof.
  apply (item_views_agree 2000 shop_one_pending 1
           {| ItemWithAvailability.item := ItemRepository.mapToItem (1%positive, shirt);
              ItemWithAvailability.availableQuantity := 1;
              ItemWithAvailability.reservedQuantity := 1;
              ItemWithAvailability.confirmedQuantity := 0 |}).
  vm_compute. reflexivity.
Defined.

(** Fifty pairs of jeans put into the catalogue of [shop_one_pending] at
    5000 and looked at a second later. *)
Lemma createItem_then_view_sample :
  ∃ item d1,
    ItemService.createItem blue_jeans 5000 shop_one_pending = (Resolved item, d1)
    ∧ Item.totalQuantity item = 50
    ∧ 0 < Item.totalQuantity item
    ∧ run (ItemService.getItem (Item.id item)) 6000 d1 = (Resolved item, d1)
    ∧ run (ItemService.getItemWithAvailability (Item.id item)) 6000 d1
      = (Resolved {| ItemWithAvailability.item := item;
                     ItemWithAvailability.availableQuantity := Item.totalQuantity item;
                     ItemWithAvailability.reservedQuantity := 0;
                     ItemWithAvailability.confirmedQuantity := 0 |}, d1).
Proof.
  eexists _, _. split; [vm_compute; reflexivity|].
  apply (createItem_then_view blue_jeans 5000 6000 shop_one_pending).
  - apply shop_one_pending_consistent.
  - vm_compute. reflexivity.
Defined.



(** A Confirm and a Cancel of reservation 1 at 2000, served in turns. *)
Lemma confirm_cancel_race_sample :
  confirm_or_cancel 2000 1 pending_shirt shop_one_pending
    (run_pool in_turns
       [ReservationService.confirmReservation 1; ReservationService.cancelReservation 1]
       2000 shop_one_pending).1
    (run_pool in_turns
       [ReservationService.confirmReservation 1; ReservationService.cancelReservation 1]
       2000 shop_one_pending).2.
Proof.
  apply (confirm_cancel_race 2000 shop_one_pending 1 pending_shirt in_turns).
  - vm_compute. reflexivity.
  - reflexivity.
  - reflexivity.
  - vm_compute. lia.
  - vm_compute. lia.
Defined.

